(** * Three small FastAPI services: a shallow embedding and its properties

    The development follows the repository's layout:
    - [Py] holds the fragment of Python the handlers rely on (exceptions,
      [str.lower], [in] on strings, slices, [any], list comprehensions and
      [list.sort]);
    - [App] embeds [day2/app.py] (the in-memory User Service and the upload
      endpoint);
    - [Student] embeds [student/schemas.py] and [student/main.py];
    - [PyFacts], [UserService], [StudentService] and [Services] hold the
      lemmas and the properties of the services.

    Conventions.  Python [int] is [Z].  A Python [str] is the [string] of
    its UTF-8 bytes: equality, [in], [<] and [len] are those of the [str],
    while [lower] and the class [\d] are given on ASCII text, where they
    fold [A-Z] and hold [0-9]; beyond ASCII Python folds more letters and
    [\d] holds more digits, so every statement that rests on either of
    them carries [isascii] for the text it reads.  A Python [dict] is a
    [gmap string value].  A handler is a function of the current store; it
    returns an [outcome] (a value or a raised exception) and, when it
    writes, the store it leaves behind.  The parameter constraints a
    handler declares in its signature ([Query(ge=1)],
    [constr(min_length=3)], ...) are checked first and answer
    [RequestValidationError].  A handler takes the model pydantic has
    built from the request body; [EmailStr] gives what pydantic makes of
    an e-mail address on the way.  What FastAPI does with the value a
    handler returns, the validation against [response_model], is
    [UserResponse.validate], and [serve] follows a write request from
    the handler's arguments to the answer. *)

From Stdlib Require Import ZArith Ascii String OrdersEx.
From stdpp Require Import base tactics option list gmap strings pretty sorting.
From Equations Require Import Equations.

Local Open Scope Z_scope.

(* ===================================================================== *)
(** * The Python fragment                                                 *)
(* ===================================================================== *)

Module Py.

(** Exceptions the handlers raise or let escape. *)
Inductive exn :=
| HTTPException (status_code : Z) (detail : string)
| DuplicateEmailError (email : string)
| RequestValidationError
| ResponseValidationError
| AttributeError
| TypeError
| KeyError (key : string)
| IndexError.

Inductive outcome (A : Type) :=
| Return (a : A)
| Raise (e : exn).
Arguments Return {A} a.
Arguments Raise {A} e.

#[global] Instance outcome_ret : MRet outcome := @Return.
#[global] Instance outcome_bind : MBind outcome := λ A B f m,
  match m with
  | Return a => f a
  | Raise e => Raise e
  end.

#[global] Instance outcome_fmap : FMap outcome := λ A B f m,
  match m with
  | Return a => Return (f a)
  | Raise e => Raise e
  end.

(** The status line the exception handlers of [app.py] (lines 108-118) and
    FastAPI's defaults give to an escaped exception. *)
Definition status_of (e : exn) : Z :=
  match e with
  | HTTPException s _ => s
  | DuplicateEmailError _ => 409
  | RequestValidationError => 422
  | _ => 500
  end.

(** [s.isascii()] *)
Fixpoint isascii (s : string) : bool :=
  match s with
  | EmptyString => true
  | String c s' => (N_of_ascii c <? 128)%N && isascii s'
  end.

(** [len(s)], the number of code points: in UTF-8 every code point has
    exactly one byte that is not of the form [10xxxxxx]. *)
Definition continuation (c : ascii) : bool :=
  let n := N_of_ascii c in ((128 <=? n) && (n <? 192))%N.

Fixpoint len (s : string) : nat :=
  match s with
  | EmptyString => 0
  | String c s' => (if continuation c then 0 else 1) + len s'
  end.

(** [str.lower] on ASCII text: [A-Z] become [a-z].  The bytes of a
    character beyond ASCII are left as they are, where Python folds some of
    them (and [isascii] is asked of the text). *)
Definition lower_ascii (c : ascii) : ascii :=
  let n := N_of_ascii c in
  if ((65 <=? n) && (n <=? 90))%N then ascii_of_N (n + 32) else c.

Fixpoint lower (s : string) : string :=
  match s with
  | EmptyString => EmptyString
  | String c s' => String (lower_ascii c) (lower s')
  end.

(** [needle in hay] for two strings. *)
Fixpoint contains (needle hay : string) : bool :=
  String.prefix needle hay ||
  match hay with
  | EmptyString => false
  | String _ hay' => contains needle hay'
  end.

(** [any(f(x) for x in l)]: stops at the first [True]; an exception raised
    while evaluating an element escapes. *)
Fixpoint any {A} (f : A → outcome bool) (l : list A) : outcome bool :=
  match l with
  | [] => Return false
  | x :: l' => b ← f x; if b : bool then Return true else any f l'
  end.

(** [[x for x in l if f(x)]]. *)
Fixpoint comprehension {A} (f : A → outcome bool) (l : list A)
  : outcome (list A) :=
  match l with
  | [] => Return []
  | x :: l' =>
      b ← f x; r ← comprehension f l';
      Return (if b : bool then x :: r else r)
  end.

(** [[f(x) for x in l]]. *)
Fixpoint each {A B} (f : A → outcome B) (l : list A) : outcome (list B) :=
  match l with
  | [] => Return []
  | x :: l' => y ← f x; r ← each f l'; Return (y :: r)
  end.

(** [l[start:stop]] for integer bounds of either sign. *)
Definition clamp (len i : Z) : Z :=
  if i <? 0 then Z.max (i + len) 0 else Z.min i len.

Definition slice {A} (l : list A) (start stop : Z) : list A :=
  let len := Z.of_nat (length l) in
  let lo := clamp len start in
  let hi := clamp len stop in
  take (Z.to_nat (hi - lo)) (drop (Z.to_nat lo) l).

(** [list.sort(key=..., reverse=...)].  CPython computes every key first,
    sorts the (key, item) pairs with a stable sort that only asks [<] of two
    keys, and implements [reverse=True] by reversing the list before and
    after that same stable ascending sort.  The stable sort is modelled by
    insertion from the right, which like CPython's compares every element of
    a list of two or more at least once. *)
Section Sort.
Context {K A : Type}.
Variable lt : K → K → outcome bool.

Fixpoint insert (x : K * A) (l : list (K * A)) : outcome (list (K * A)) :=
  match l with
  | [] => Return [x]
  | y :: l' =>
      b ← lt y.1 x.1;
      if b : bool then r ← insert x l'; Return (y :: r)
      else Return (x :: l)
  end.

Fixpoint stable_sort (l : list (K * A)) : outcome (list (K * A)) :=
  match l with
  | [] => Return []
  | x :: l' => s ← stable_sort l'; insert x s
  end.

Definition sort (key : A → outcome K) (reversed : bool) (l : list A)
  : outcome (list A) :=
  keys ← each key l;
  let kv := zip keys l in
  s ← stable_sort (if reversed then reverse kv else kv);
  Return ((if reversed then reverse s else s).*2).
End Sort.

(** The regular expressions of the [pattern=] constraints: literals, [\d],
    concatenation, [|] and bounded repetition [{lo,hi}].  Every pattern of
    the repository is anchored by [^] and [$], hence [fullmatch]. *)
Inductive regex :=
| Lit (s : string)
| Digit
| Cat (r1 r2 : regex)
| Alt (r1 r2 : regex)
| Rep (r : regex) (lo hi : nat).

(** [\d] on ASCII text: [0-9].  Beyond ASCII the pattern engine takes
    every Unicode decimal digit, which this class leaves out (and
    [isascii] is asked of the text). *)
Definition is_digit (c : ascii) : bool :=
  let n := N_of_ascii c in ((48 <=? n) && (n <=? 57))%N.

Fixpoint strip_prefix (p s : string) : option string :=
  match p, s with
  | EmptyString, _ => Some s
  | String a p', String b s' =>
      if Ascii.eqb a b then strip_prefix p' s' else None
  | String _ _, EmptyString => None
  end.

(** [re_match r s k]: some prefix of [s] matches [r] and [k] accepts what
    follows it. *)
Fixpoint re_match (r : regex) (s : string) (k : string → bool) : bool :=
  match r with
  | Lit p => from_option k false (strip_prefix p s)
  | Digit =>
      match s with
      | String c s' => is_digit c && k s'
      | EmptyString => false
      end
  | Cat r1 r2 => re_match r1 s (λ s', re_match r2 s' k)
  | Alt r1 r2 => re_match r1 s k || re_match r2 s k
  | Rep r' lo hi =>
      (fix rep (lo hi : nat) (s : string) : bool :=
         match hi with
         | O => Nat.eqb lo 0 && k s
         | S hi' =>
             (Nat.eqb lo 0 && k s) ||
             re_match r' s (λ s', rep (Nat.pred lo) hi' s')
         end) lo hi s
  end.

Definition fullmatch (r : regex) (s : string) : bool :=
  re_match r s (λ rest, bool_decide (rest = EmptyString)).

End Py.

(* ===================================================================== *)
(** * day2/app.py: the User Service                                       *)
(* ===================================================================== *)

Module App.
Import Py.

(** ** Schemas (app.py, lines 45-83) *)

Record Address := { city : string; country : string }.

#[global] Instance Address_eq_dec : EqDecision Address.
Proof. solve_decision. Defined.

(** What a key of a user [dict] can hold. *)
Inductive value :=
| VNone
| VInt (n : Z)
| VStr (s : string)
| VAddrs (l : list Address)
| VDatetime (t : Z).

#[global] Instance value_eq_dec : EqDecision value.
Proof. solve_decision. Defined.

(** [constr(min_length=lo, max_length=hi)]. *)
Definition constr (lo hi : nat) (s : string) : bool :=
  (lo <=? len s)%nat && (len s <=? hi)%nat.

Definition Address_valid (a : Address) : bool :=
  constr 2 50 (city a) && constr 2 50 (country a).

Definition of_optional {A} (inj : A → value) (o : option A) : value :=
  match o with
  | Some a => inj a
  | None => VNone
  end.

(** [EmailStr].  pydantic does not hand the handler the address of the
    body but the one its e-mail library has normalised, in which the part
    after the [@] stands in lower case.  [normalized] is that address for
    a plain one: ASCII text [local@domain] of at most 254 characters in
    which [local] is at most 64 characters, made of atoms of letters,
    digits, [+], [-] and [_] joined by dots, and [domain] is two or more
    labels joined by dots, each of at most 63 letters, digits and single
    inner hyphens, the last of letters only.  [None] stands for every other
    string.  The library refuses most of them; those it accepts or treats
    in a way of their own (a display name, blanks around the address,
    characters beyond ASCII, the mailbox names it folds, the domains it
    reserves) are left out, and nothing is stated about them. *)
Module EmailStr.
Fixpoint split (sep : ascii) (s : string) : list string :=
  match s with
  | EmptyString => [EmptyString]
  | String c s' =>
      if Ascii.eqb c sep then EmptyString :: split sep s'
      else match split sep s' with
           | w :: ws => String c w :: ws
           | [] => [String c EmptyString]
           end
  end.

Fixpoint every (p : ascii → bool) (s : string) : bool :=
  match s with
  | EmptyString => true
  | String c s' => p c && every p s'
  end.

Definition is_letter (c : ascii) : bool :=
  let n := N_of_ascii c in
  ((65 <=? n) && (n <=? 90) || (97 <=? n) && (n <=? 122))%N.

Definition atom_char (c : ascii) : bool :=
  is_letter c || is_digit c ||
  Ascii.eqb c "+" || Ascii.eqb c "-" || Ascii.eqb c "_".

Definition label_char (c : ascii) : bool :=
  is_letter c || is_digit c || Ascii.eqb c "-".

(** Mailbox names the library folds to lower case, and top-level names it
    reserves. *)
Definition folded_mailboxes : list string :=
  ["info"; "marketing"; "sales"; "support"; "abuse"; "noc"; "security";
   "postmaster"; "hostmaster"; "usenet"; "news"; "webmaster"; "www";
   "uucp"; "ftp"].

Definition reserved_names : list string :=
  ["arpa"; "invalid"; "local"; "localhost"; "onion"; "test"; "example"].

Definition atom_ok (a : string) : bool :=
  negb (bool_decide (a = EmptyString)) && every atom_char a.

Definition local_ok (local : string) : bool :=
  forallb atom_ok (split "." local) &&
  (String.length local <=? 64)%nat &&
  negb (bool_decide (lower local ∈ folded_mailboxes)).

Definition label_ok (l : string) : bool :=
  negb (bool_decide (l = EmptyString)) && every label_char l &&
  (String.length l <=? 63)%nat &&
  negb (String.prefix "-" l) && negb (String.prefix "-" (String.rev l)) &&
  negb (contains "--" l) &&
  negb (bool_decide (lower l ∈ reserved_names)).

Definition domain_ok (domain : string) : bool :=
  let labels := split "." domain in
  (2 <=? length labels)%nat && forallb label_ok labels &&
  every is_letter (List.last labels EmptyString) &&
  (String.length domain <=? 253)%nat.

Definition normalized (s : string) : option string :=
  match split "@" s with
  | [local; domain] =>
      if local_ok local && domain_ok domain && (String.length s <=? 254)%nat
      then Some (local +:+ "@" +:+ lower domain)
      else None
  | _ => None
  end.
End EmailStr.

Module UserCreate.
(** The model pydantic hands to the handler.  [email] is an [EmailStr]:
    the handler sees the normalised address, and [of_body] is the model of
    a body whose address is a plain one.  The other constraints are
    [valid]. *)
Record t := {
  name : string;
  email : string;
  age : Z;
  bio : option string;
  addresses : list Address;
}.

Definition of_body (body : t) : option t :=
  e ← EmailStr.normalized (email body);
  Some {| name := name body; email := e; age := age body;
          bio := bio body; addresses := addresses body |}.

Definition valid (u : t) : bool :=
  constr 3 50 (name u) &&
  (13 <=? age u) && (age u <=? 120) &&
  from_option (constr 0 200) true (bio u) &&
  forallb Address_valid (addresses u).

(** [user.dict()] *)
Definition dict (u : t) : gmap string value :=
  {[ "name" := VStr (name u);
     "email" := VStr (email u);
     "age" := VInt (age u);
     "bio" := of_optional VStr (bio u);
     "addresses" := VAddrs (addresses u) ]}.
End UserCreate.

Module UserUpdate.
(** Every field is optional and defaults to [None]; pydantic remembers
    which fields the request body supplied.  [None] is a field the body
    left out, [Some None] a field supplied as [null]. *)
Record t := {
  name : option (option string);
  email : option (option string);
  age : option (option Z);
  bio : option (option string);
  addresses : option (option (list Address));
}.

Definition supplied {A} (ok : A → bool) (f : option (option A)) : bool :=
  match f with
  | Some (Some a) => ok a
  | _ => true
  end.

Definition valid (c : t) : bool :=
  supplied (constr 3 50) (name c) &&
  supplied (λ a, (13 <=? a) && (a <=? 120)) (age c) &&
  supplied (constr 0 200) (bio c) &&
  supplied (forallb Address_valid) (addresses c).

Definition put {A} (k : string) (inj : A → value) (f : option (option A))
    (d : gmap string value) : gmap string value :=
  match f with
  | Some v => <[k := of_optional inj v]> d
  | None => d
  end.

(** [changes.dict(exclude_unset=True)] *)
Definition dict_exclude_unset (c : t) : gmap string value :=
  put "name" VStr (name c)
    (put "email" VStr (email c)
      (put "age" VInt (age c)
        (put "bio" VStr (bio c)
          (put "addresses" VAddrs (addresses c) ∅)))).


(** The model of a body: an address that is supplied is normalised as in
    [UserCreate]. *)
Definition of_body (body : t) : option t :=
  match email body with
  | Some (Some raw) =>
      e ← EmailStr.normalized raw;
      Some {| name := name body; email := Some (Some e); age := age body;
              bio := bio body; addresses := addresses body |}
  | _ => Some body
  end.
End UserUpdate.

(** [response_model=UserResponse] (lines 64-71, 149, 207, 224, 237): FastAPI
    validates the dict a handler returns against the model and answers
    with the model's fields; when the dict does not fit, the request ends
    in [ResponseValidationError], after the handler has run.  A str is
    asked for [name], an int for [id] and [age], a datetime for
    [created_at], a list of addresses for [addresses] and a str or [None]
    for [bio]; a missing [bio] or [addresses] takes its default.  The
    handlers put ints, strs, datetimes, address lists and [None] under
    these keys and nothing pydantic would convert; what is under [email]
    came out of [EmailStr] and passes it again unchanged. *)
Module UserResponse.
Record t := {
  id : Z;
  name : string;
  email : string;
  age : Z;
  bio : option string;
  addresses : list Address;
  created_at : Z;
}.

Definition optional_str (v : option value) : option (option string) :=
  match v with
  | None | Some VNone => Some None
  | Some (VStr s) => Some (Some s)
  | Some _ => None
  end.

Definition address_list (v : option value) : option (list Address) :=
  match v with
  | None => Some []
  | Some (VAddrs l) => if forallb Address_valid l then Some l else None
  | Some _ => None
  end.

Definition validate (u : gmap string value) : outcome t :=
  match u !! "id", u !! "name", u !! "email", u !! "age",
        optional_str (u !! "bio"), address_list (u !! "addresses"),
        u !! "created_at" with
  | Some (VInt i), Some (VStr n), Some (VStr e), Some (VInt a),
    Some b, Some l, Some (VDatetime c) =>
      Return {| id := i; name := n; email := e; age := a; bio := b;
                addresses := l; created_at := c |}
  | _, _, _, _, _, _, _ => Raise ResponseValidationError
  end.
End UserResponse.

Record PaginatedUsers := {
  total : Z;
  page : Z;
  limit : Z;
  items : list (gmap string value);
}.

(** ** The in-memory "DB" (lines 89-90) *)

Record Store := {
  USERS : list (gmap string value);
  USER_ID : Z;
}.

Definition init : Store := {| USERS := []; USER_ID := 1 |}.

(** ** Operators on values *)

(** [d[k]] *)
Definition getitem (d : gmap string value) (k : string) : outcome value :=
  match d !! k with
  | Some v => Return v
  | None => Raise (KeyError k)
  end.

(** [l[i]] for an index that is not negative. *)
Definition index {A} (l : list A) (i : Z) : outcome A :=
  match l !! Z.to_nat i with
  | Some x => Return x
  | None => Raise IndexError
  end.

(** [v.lower()]: only [str] has the attribute. *)
Definition lower_of (v : value) : outcome string :=
  match v with
  | VStr s => Return (lower s)
  | _ => Raise AttributeError
  end.

(** The text of a [str], for the message of an exception. *)
Definition str (v : value) : string :=
  match v with
  | VStr s => s
  | _ => EmptyString
  end.

(** [v == n] and [v != n] for an [int] n: never an error. *)
Definition eq_int (v : value) (n : Z) : bool :=
  match v with
  | VInt m => m =? n
  | _ => false
  end.

(** [v >= n] and [v <= n] for an [int] n. *)
Definition ge_int (v : value) (n : Z) : outcome bool :=
  match v with
  | VInt m => Return (n <=? m)
  | _ => Raise TypeError
  end.

Definition le_int (v : value) (n : Z) : outcome bool :=
  match v with
  | VInt m => Return (m <=? n)
  | _ => Raise TypeError
  end.

(** [x < y] on two lists of address dicts: the first pair that differs is
    compared with [<], which dicts do not support; without one the shorter
    list is the smaller. *)
Fixpoint addrs_lt (x y : list Address) : outcome bool :=
  match x, y with
  | [], [] => Return false
  | [], _ :: _ => Return true
  | _ :: _, [] => Return false
  | a :: x', b :: y' =>
      if decide (a = b) then addrs_lt x' y' else Raise TypeError
  end.

(** [a < b], as [list.sort] asks it of two keys. *)
Definition value_lt (a b : value) : outcome bool :=
  match a, b with
  | VInt x, VInt y => Return (x <? y)
  | VStr x, VStr y => Return (String.ltb x y)
  | VDatetime x, VDatetime y => Return (x <? y)
  | VAddrs x, VAddrs y => addrs_lt x y
  | _, _ => Raise TypeError
  end.

(** ** Helpers (lines 94-98) *)

Fixpoint find_from (i : Z) (user_id : Z) (l : list (gmap string value))
  : outcome Z :=
  match l with
  | [] => Return (-1)
  | u :: l' =>
      v ← getitem u "id";
      if eq_int v user_id then Return i else find_from (i + 1) user_id l'
  end.

Definition _find_user_index (user_id : Z) (st : Store) : outcome Z :=
  find_from 0 user_id (USERS st).

Definition not_found (user_id : Z) : exn :=
  HTTPException 404 ("User " +:+ pretty user_id +:+ " not found").

(** ** CREATE (lines 149-168) *)

(** [u["email"].lower() == email.lower()] *)
Definition same_email (email : string) (u : gmap string value)
  : outcome bool :=
  e ← getitem u "email"; l ← lower_of e;
  Return (bool_decide (l = lower email)).

(** [{"id": USER_ID, **user.dict(), "created_at": datetime.utcnow()}]: a
    later key of the display overrides an earlier one. *)
Definition new_user (user : UserCreate.t) (utcnow : Z) (user_id : Z)
  : gmap string value :=
  <["created_at" := VDatetime utcnow]>
    (UserCreate.dict user ∪ {[ "id" := VInt user_id ]}).

(** [utcnow] is what [datetime.utcnow()] answers.  The welcome e-mail
    scheduled at line 166 sleeps and does nothing: it leaves no trace in
    the store or in the response. *)
Definition create_user (user : UserCreate.t) (utcnow : Z) (st : Store)
  : outcome (gmap string value) * Store :=
  if negb (UserCreate.valid user) then (Raise RequestValidationError, st)
  else
    match any (same_email (UserCreate.email user)) (USERS st) with
    | Raise e => (Raise e, st)
    | Return true => (Raise (DuplicateEmailError (UserCreate.email user)), st)
    | Return false =>
        let new_user := new_user user utcnow (USER_ID st) in
        (Return new_user,
         {| USERS := USERS st ++ [new_user]; USER_ID := USER_ID st + 1 |})
    end.

(** ** READ (lines 174-218) *)

(** [^(id|name|age)$] and [^(asc|desc)$] *)
Definition sort_by_pattern : regex :=
  Alt (Lit "id") (Alt (Lit "name") (Lit "age")).

Definition order_pattern : regex := Alt (Lit "asc") (Lit "desc").

Definition optional {A} (ok : A → bool) (o : option A) : bool :=
  from_option ok true o.

Definition list_users_valid (page limit : Z) (q : option string)
    (min_age max_age : option Z) (sort_by order : string) : bool :=
  (1 <=? page) && (1 <=? limit) && (limit <=? 100) &&
  optional (λ s, (2 <=? len s)%nat) q &&
  optional (λ a, 0 <=? a) min_age &&
  optional (λ a, 0 <=? a) max_age &&
  fullmatch sort_by_pattern sort_by &&
  fullmatch order_pattern order.

(** [q_lower in u["name"].lower() or q_lower in u["email"].lower()] *)
Definition matches (q_lower : string) (u : gmap string value)
  : outcome bool :=
  n ← getitem u "name"; n ← lower_of n;
  if contains q_lower n then Return true
  else e ← getitem u "email"; e ← lower_of e; Return (contains q_lower e).

Definition truthy (q : option string) : option string :=
  match q with
  | Some EmptyString => None
  | _ => q
  end.

Definition list_users (page limit : Z) (q : option string)
    (min_age max_age : option Z) (sort_by order : string) (st : Store)
  : outcome PaginatedUsers :=
  if negb (list_users_valid page limit q min_age max_age sort_by order)
  then Raise RequestValidationError
  else
    let items := USERS st in
    (* Filtering *)
    items ← match truthy q with
            | Some q => comprehension (matches (lower q)) items
            | None => Return items
            end;
    items ← match min_age with
            | Some a =>
                comprehension (λ u, v ← getitem u "age"; ge_int v a) items
            | None => Return items
            end;
    items ← match max_age with
            | Some a =>
                comprehension (λ u, v ← getitem u "age"; le_int v a) items
            | None => Return items
            end;
    (* Sorting *)
    let reverse := bool_decide (order = "desc") in
    items ← sort value_lt (λ u, getitem u sort_by) reverse items;
    (* Pagination *)
    let total := Z.of_nat (length items) in
    let start := (page - 1) * limit in
    let end_ := start + limit in
    let page_items := slice items start end_ in
    Return {| total := total; page := page; limit := limit;
              items := page_items |}.

Definition get_user (user_id : Z) (include_addresses : bool) (st : Store)
  : outcome (gmap string value) :=
  if negb (1 <=? user_id) then Raise RequestValidationError
  else
    idx ← _find_user_index user_id st;
    if idx =? -1 then Raise (not_found user_id)
    else
      user ← index (USERS st) idx;
      Return (if include_addresses then user
              else <["addresses" := VAddrs []]> user).

(** ** UPDATE (lines 224-252) *)

(** [u["email"].lower() == email.lower() and u["id"] != user_id] *)
Definition held_by_other (email : string) (user_id : Z)
    (u : gmap string value) : outcome bool :=
  same ← same_email email u;
  if same : bool then v ← getitem u "id"; Return (negb (eq_int v user_id))
  else Return false.

(** [USERS[idx].update(d)]; the handlers then return [USERS[idx]]. *)
Definition update_at (idx : Z) (d : gmap string value) (st : Store)
  : outcome (gmap string value) * Store :=
  match index (USERS st) idx with
  | Raise e => (Raise e, st)
  | Return u =>
      (Return (d ∪ u),
       {| USERS := <[Z.to_nat idx := d ∪ u]> (USERS st);
          USER_ID := USER_ID st |})
  end.

Definition replace_user (user_id : Z) (payload : UserCreate.t) (st : Store)
  : outcome (gmap string value) * Store :=
  if negb (UserCreate.valid payload) then (Raise RequestValidationError, st)
  else
    match _find_user_index user_id st with
    | Raise e => (Raise e, st)
    | Return idx =>
        if idx =? -1 then (Raise (not_found user_id), st)
        else
          match any (held_by_other (UserCreate.email payload) user_id)
                    (USERS st) with
          | Raise e => (Raise e, st)
          | Return true =>
              (Raise (DuplicateEmailError (UserCreate.email payload)), st)
          | Return false => update_at idx (UserCreate.dict payload) st
          end
    end.

(** The duplicate check of lines 246-249.  [email] is whatever the change
    set holds under ["email"]; [email.lower()] is evaluated after
    [u["email"].lower()], for the first user of the list. *)
Definition patch_email_check (email : value) (user_id : Z)
    (u : gmap string value) : outcome bool :=
  e ← getitem u "email"; l ← lower_of e; m ← lower_of email;
  if bool_decide (l = m)
  then v ← getitem u "id"; Return (negb (eq_int v user_id))
  else Return false.

Definition patch_user (user_id : Z) (changes : UserUpdate.t) (st : Store)
  : outcome (gmap string value) * Store :=
  if negb (UserUpdate.valid changes) then (Raise RequestValidationError, st)
  else
    match _find_user_index user_id st with
    | Raise e => (Raise e, st)
    | Return idx =>
        if idx =? -1 then (Raise (not_found user_id), st)
        else
          let update_data := UserUpdate.dict_exclude_unset changes in
          match update_data !! "email" with
          | Some email =>
              match any (patch_email_check email user_id) (USERS st) with
              | Raise e => (Raise e, st)
              | Return true => (Raise (DuplicateEmailError (str email)), st)
              | Return false => update_at idx update_data st
              end
          | None => update_at idx update_data st
          end
    end.

(** ** DELETE (lines 258-264) *)

Definition delete_user (user_id : Z) (st : Store) : outcome string * Store :=
  match _find_user_index user_id st with
  | Raise e => (Raise e, st)
  | Return idx =>
      if idx =? -1 then (Raise (not_found user_id), st)
      else
        match index (USERS st) idx with
        | Raise e => (Raise e, st)
        | Return _ =>
            (Return ("User " +:+ pretty user_id +:+ " deleted"),
             {| USERS := delete (Z.to_nat idx) (USERS st);
                USER_ID := USER_ID st |})
        end
  end.

(** ** File uploads (lines 270-300) *)

Record UploadFile := {
  filename : string;
  content_type : option string;
  file : list Byte.byte;          (* what is left to read of the stream *)
}.

Record UploadResponse := {
  r_filename : string;
  r_content_type : option string;
  r_size_bytes : option Z;
  r_message : string;
}.

(** [os.path.join(a, b)] on a POSIX system. *)
Definition path_join (a b : string) : string :=
  if String.prefix "/" b then b
  else if bool_decide (a = "") || String.prefix "/" (String.rev a)
       then a +:+ b
       else a +:+ "/" +:+ b.

(** [file.read(n)]: the next [n] bytes, fewer at the end of the stream, and
    the stream that is left. *)
Definition read (n : Z) (stream : list Byte.byte)
  : list Byte.byte * list Byte.byte :=
  (take (Z.to_nat n) stream, drop (Z.to_nat n) stream).

(** The loop of lines 284-289, reading [n] bytes at a time: [size] is the
    running count, [f] what has been written to the destination so far and
    [chunks] the reads that returned data, in order. *)
Equations? copy_loop (n : Z) (stream : list Byte.byte) (size : Z)
    (f : list Byte.byte) (chunks : list (list Byte.byte))
  : Z * list Byte.byte * list (list Byte.byte)
  by wf (length stream) Nat.lt :=
  copy_loop n stream size f chunks
    with Equations.Prop.Logic.inspect (read n stream).1 := {
    | exist _ nil _ => (size, f, chunks);
    | exist _ (cons b chunk) Hread =>
        copy_loop n (read n stream).2
          (size + Z.of_nat (length (b :: chunk))) (f ++ b :: chunk)
          (chunks ++ [b :: chunk]) }.
Proof.
  unfold read in *; simpl in *.
  assert (Hlen : (0 < length (take (Z.to_nat n) stream))%nat)
    by (rewrite Hread; simpl; lia).
  rewrite length_take in Hlen. rewrite length_drop. unfold Nat.lt. lia.
Qed.

Definition MiB : Z := 1024 * 1024.

(** [open(dest_path, "wb")] is taken to succeed: the directory has just
    been made, and for a file name that names a file of that directory
    [open] truncates or creates it.  A name with a directory part that
    does not exist makes [open] raise, and two path strings can name one
    file; both are left out, and what is stated of an upload is stated of
    the bytes it reads, counts and writes.  The file system is a map from
    the path string to the bytes written under it. *)
Definition upload_file (UPLOAD_DIR : string) (upload : UploadFile)
    (description : option string) (user_id : option Z)
    (fs : gmap string (list Byte.byte))
  : outcome UploadResponse * gmap string (list Byte.byte) :=
  if negb (optional (λ i, 1 <=? i) user_id)
  then (Raise RequestValidationError, fs)
  else
    let dest_path := path_join UPLOAD_DIR (filename upload) in
    let '(size, f, _) := copy_loop MiB (file upload) 0 [] [] in
    let msg :=
      match user_id with
      | Some i =>
          if i =? 0 then "Uploaded" else "Uploaded for user " +:+ pretty i
      | None => "Uploaded"
      end in
    let msg :=
      match truthy description with
      | Some d => msg +:+ " (" +:+ d +:+ ")"
      | None => msg
      end in
    (Return {| r_filename := filename upload;
               r_content_type := content_type upload;
               r_size_bytes := Some size;
               r_message := msg |},
     <[dest_path := f]> fs).

(** ** The requests that write to the store *)

(** [handle] is the call of the handler, up to the value it returns or the
    exception it raises; [serve], below, goes on to the answer. *)
Inductive request :=
| POST_users (user : UserCreate.t) (utcnow : Z)
| PUT_users (user_id : Z) (payload : UserCreate.t)
| PATCH_users (user_id : Z) (changes : UserUpdate.t)
| DELETE_users (user_id : Z).

Inductive body :=
| User (u : gmap string value)
| Message (m : string).

Definition handle (r : request) (st : Store) : outcome body * Store :=
  match r with
  | POST_users user utcnow =>
      prod_map (fmap User) id (create_user user utcnow st)
  | PUT_users user_id payload =>
      prod_map (fmap User) id (replace_user user_id payload st)
  | PATCH_users user_id changes =>
      prod_map (fmap User) id (patch_user user_id changes st)
  | DELETE_users user_id =>
      prod_map (fmap Message) id (delete_user user_id st)
  end.

(** A request from the handler's arguments to the answer: the handler
    runs, and what it returns is validated against the route's
    [response_model] (Delete declares none).  The store is the one the
    handler left, whatever the validation says. *)
Inductive answer :=
| UserOut (u : UserResponse.t)
| MessageOut (m : string).

Definition render (b : body) : outcome answer :=
  match b with
  | User u => UserOut <$> UserResponse.validate u
  | Message m => Return (MessageOut m)
  end.

Definition serve (r : request) (st : Store) : outcome answer * Store :=
  ((handle r st).1 ≫= render, (handle r st).2).

(** ** Global error handling (lines 104-118) *)

Inductive json :=
| JBool (b : bool)
| JStr (s : string).

Record JSONResponse := {
  status_code : Z;
  content : gmap string json;
}.

Definition duplicate_email_handler (email : string) : JSONResponse :=
  {| status_code := 409;
     content := {[ "error" := JBool true;
                   "message" := JStr ("Email already exists: " +:+ email) ]} |}.

Definition http_exception_handler (status : Z) (detail : string)
  : JSONResponse :=
  {| status_code := status;
     content := {[ "error" := JBool true; "detail" := JStr detail ]} |}.

(** The handler the application registers for an exception; the others
    are left to the framework. *)
Definition exception_handler (e : exn) : option JSONResponse :=
  match e with
  | DuplicateEmailError email => Some (duplicate_email_handler email)
  | HTTPException status detail => Some (http_exception_handler status detail)
  | _ => None
  end.

End App.

(* ===================================================================== *)
(** * student/: the Student Service                                       *)
(* ===================================================================== *)

Module Student.
Import Py.

(** ** student/schemas.py *)

Module schemas.
(** [email] is an [EmailStr], whose syntax check is library code; the
    other constrained fields carry the patterns below. *)
Record student := {
  name : string;
  email : string;
  phone : string;
  DoB : string;
  gender : string;
  course : string;
  college : string;
}.

(** [^\+91\d{1,12}$] *)
Definition phone_pattern : regex := Cat (Lit "+91") (Rep Digit 1 12).

(** [^\d{4}-\d{2}-\d{2}$] *)
Definition DoB_pattern : regex :=
  Cat (Rep Digit 4 4)
    (Cat (Lit "-") (Cat (Rep Digit 2 2) (Cat (Lit "-") (Rep Digit 2 2)))).

(** [^(Male|Female|Other)$] *)
Definition gender_pattern : regex :=
  Alt (Lit "Male") (Alt (Lit "Female") (Lit "Other")).

Definition valid (r : student) : bool :=
  fullmatch phone_pattern (phone r) &&
  fullmatch DoB_pattern (DoB r) &&
  fullmatch gender_pattern (gender r).
End schemas.

(** The phone pattern in the specification's words, [+<country><1-12
    digits>]: a plus sign, a country calling code (one to three digits,
    as in ITU-T E.164) and one to twelve digits. *)
Definition spec_phone_pattern : regex :=
  Cat (Lit "+") (Cat (Rep Digit 1 3) (Rep Digit 1 12)).

(** ** The table *)

(** Modelled from the spec: [student/models.py] and [student/database.py]
    are not among the sources.  A row is the entity of the data model: an
    integer id assigned by the storage engine and the seven string fields;
    the table is the sequence of its rows, and the engine hands out ids
    from a counter. *)
Record Row := { id : Z; data : schemas.student }.

Record Table := { rows : list Row; next_id : Z }.

(** [db.query(models.Student).filter(models.Student.id == student_id)] *)
Definition query_id (student_id : Z) (db : Table) : list Row :=
  filter (λ r, id r = student_id) (rows db).

Definition not_available (student_id : Z) : exn :=
  HTTPException 404
    ("Student with the id " +:+ pretty student_id +:+ " is not available").

(** ** student/main.py *)

Definition create_student (request : schemas.student) (db : Table)
  : outcome Row * Table :=
  if negb (schemas.valid request) then (Raise RequestValidationError, db)
  else
    let new_student := {| id := next_id db; data := request |} in
    (Return new_student,
     {| rows := rows db ++ [new_student]; next_id := next_id db + 1 |}).


Definition get_student (student_id : Z) (db : Table) : outcome Row :=
  match head (query_id student_id db) with
  | None => Raise (not_available student_id)
  | Some student => Return student
  end.

Definition update_student (student_id : Z) (request : schemas.student)
    (db : Table) : outcome string * Table :=
  if negb (schemas.valid request) then (Raise RequestValidationError, db)
  else
    match head (query_id student_id db) with
    | None => (Raise (not_available student_id), db)
    | Some _ =>
        (Return ("Student with the id " +:+ pretty student_id +:+
                 " is updated successfully"),
         {| rows := (λ r, if decide (id r = student_id)
                          then {| id := id r; data := request |} else r)
                    <$> rows db;
            next_id := next_id db |})
    end.

Definition delete_student (student_id : Z) (db : Table)
  : outcome string * Table :=
  match head (query_id student_id db) with
  | None => (Raise (not_available student_id), db)
  | Some _ =>
      (Return "Deleted Successfully",
       {| rows := filter (λ r, id r ≠ student_id) (rows db);
          next_id := next_id db |})
  end.

End Student.

(* ===================================================================== *)
(** * Facts about the Python fragment                                     *)
(* ===================================================================== *)

Module PyFacts.
Import Py.

(** A loop whose body never raises is the list function it looks like. *)
Lemma any_pure {A} (f : A → outcome bool) (g : A → bool) (l : list A) :
  Forall (λ x, f x = Return (g x)) l → any f l = Return (existsb g l).
Proof.
  induction 1 as [|x l Hx _ IH]; simpl; [done|].
  rewrite Hx; simpl. by destruct (g x).
Qed.

Lemma comprehension_pure {A} (f : A → outcome bool) (g : A → bool)
    (l : list A) :
  Forall (λ x, f x = Return (g x)) l →
  comprehension f l = Return (List.filter g l).
Proof.
  induction 1 as [|x l Hx _ IH]; simpl; [done|].
  rewrite Hx; simpl. rewrite IH; simpl. by destruct (g x).
Qed.

Lemma each_pure {A B} (f : A → outcome B) (g : A → B) (l : list A) :
  Forall (λ x, f x = Return (g x)) l → each f l = Return (g <$> l).
Proof.
  induction 1 as [|x l Hx _ IH]; simpl; [done|].
  rewrite Hx; simpl. by rewrite IH.
Qed.

Lemma existsb_false_Forall {A} (g : A → bool) (l : list A) :
  existsb g l = false ↔ Forall (λ x, g x = false) l.
Proof.
  induction l as [|x l IH]; simpl.
  - split; [constructor | done].
  - rewrite orb_false_iff, IH, Forall_cons. done.
Qed.

Lemma existsb_true_elem {A} (g : A → bool) (l : list A) :
  existsb g l = true ↔ ∃ x, x ∈ l ∧ g x = true.
Proof.
  rewrite existsb_exists. setoid_rewrite list_elem_of_In. done.
Qed.

(** Replacing one element of a duplicate-free list by a fresh one. *)
Lemma NoDup_insert_fresh {A} (l : list A) (i : nat) (x : A) :
  NoDup l →
  (∀ j y, l !! j = Some y → j ≠ i → y ≠ x) →
  NoDup (<[i:=x]> l).
Proof.
  intros Hnd Hfresh. apply NoDup_alt. intros j1 j2 y H1 H2.
  destruct (decide (j1 = i)) as [E1|Hn1], (decide (j2 = i)) as [E2|Hn2];
    [congruence| | |].
  - subst j1.
    apply list_lookup_insert_Some in H1 as [(_ & Hx & _)|[? _]]; [|done].
    subst y. rewrite list_lookup_insert_ne in H2 by done.
    exfalso. by eapply (Hfresh j2 x).
  - subst j2.
    apply list_lookup_insert_Some in H2 as [(_ & Hx & _)|[? _]]; [|done].
    subst y. rewrite list_lookup_insert_ne in H1 by done.
    exfalso. by eapply (Hfresh j1 x).
  - rewrite list_lookup_insert_ne in H1, H2 by done.
    eapply NoDup_alt; eauto.
Qed.

(** ** Regular expressions *)

Fixpoint all_digits (s : string) : bool :=
  match s with
  | EmptyString => true
  | String c s' => is_digit c && all_digits s'
  end.

Lemma append_cons a (p s : string) : String a p +:+ s = String a (p +:+ s).
Proof. done. Qed.

Lemma append_empty_r (p : string) : p +:+ EmptyString = p.
Proof. induction p; [done|]. rewrite append_cons. by f_equal. Qed.

Lemma strip_prefix_Some p s r : strip_prefix p s = Some r ↔ s = p +:+ r.
Proof.
  revert s. induction p as [|a p IH]; intros s; simpl.
  - split; [by intros [= ->] | by intros ->].
  - destruct s as [|b s]; [done|].
    destruct (Ascii.eqb_spec a b) as [->|Hne].
    + rewrite IH. split; [by intros ->|by intros [= ->]].
    + split; [done|]. intros [=]. done.
Qed.

Lemma re_match_Lit p s k :
  re_match (Lit p) s k = true ↔ ∃ r, s = p +:+ r ∧ k r = true.
Proof.
  simpl. destruct (strip_prefix p s) as [r|] eqn:E; simpl.
  - apply strip_prefix_Some in E. split; [eauto|].
    intros (r' & -> & ?). apply (inj (String.append p)) in E. by subst.
  - split; [done|]. intros (r & Hs & _).
    apply strip_prefix_Some in Hs. congruence.
Qed.

Lemma fullmatch_Lit p s : fullmatch (Lit p) s = true ↔ s = p.
Proof.
  unfold fullmatch. rewrite re_match_Lit. split.
  - intros (r & -> & Hr). apply bool_decide_eq_true in Hr. subst r.
    apply append_empty_r.
  - intros ->. exists EmptyString. by rewrite append_empty_r.
Qed.

Lemma fullmatch_Alt r1 r2 s :
  fullmatch (Alt r1 r2) s = fullmatch r1 s || fullmatch r2 s.
Proof. done. Qed.

(** [\d{lo,hi}] followed by [k]. *)
Lemma re_match_Rep_Digit lo hi s k :
  re_match (Rep Digit lo hi) s k = true ↔
  ∃ ds r, s = ds +:+ r ∧ all_digits ds = true ∧
          (lo ≤ String.length ds ≤ hi)%nat ∧ k r = true.
Proof.
  simpl. revert lo s. induction hi as [|hi IH]; intros lo s.
  - rewrite andb_true_iff, Nat.eqb_eq. split.
    + intros [-> Hk]. exists EmptyString, s. simpl. repeat split; try done.
    + intros (ds & r & -> & _ & Hl & Hk).
      destruct ds; simpl in *; [split; [lia|done] | lia].
  - rewrite orb_true_iff, andb_true_iff, Nat.eqb_eq. split.
    + intros [[-> Hk]|H].
      * exists EmptyString, s. simpl. repeat split; try done. lia.
      * destruct s as [|c s]; [done|].
        apply andb_true_iff in H as [Hc H].
        apply IH in H as (ds & r & -> & Hds & Hl & Hk).
        exists (String c ds), r. simpl. rewrite Hc, Hds.
        repeat split; try done; lia.
    + intros (ds & r & -> & Hds & Hl & Hk).
      destruct ds as [|c ds]; simpl in *.
      * left. split; [lia|done].
      * right. apply andb_true_iff in Hds as [Hc Hds].
        rewrite Hc. simpl. apply IH. exists ds, r.
        repeat split; try done; lia.
Qed.

(** ** [list.sort] on keys that can be compared *)

Section PureSort.
Context {K A : Type} `{EqDecision K}.
Variable ltb : K → K → bool.

(** The sort without its exceptions. *)
Fixpoint insert_pure (x : K * A) (l : list (K * A)) : list (K * A) :=
  match l with
  | [] => [x]
  | y :: l' => if ltb y.1 x.1 then y :: insert_pure x l' else x :: l
  end.

Fixpoint sort_pure (l : list (K * A)) : list (K * A) :=
  match l with
  | [] => []
  | x :: l' => insert_pure x (sort_pure l')
  end.

Lemma insert_pure_perm x l : insert_pure x l ≡ₚ x :: l.
Proof.
  induction l as [|y l IH]; simpl; [done|].
  destruct (ltb _ _); [|done]. rewrite IH. apply Permutation_swap.
Qed.

Lemma sort_pure_perm l : sort_pure l ≡ₚ l.
Proof.
  induction l as [|x l IH]; simpl; [done|].
  by rewrite insert_pure_perm, IH.
Qed.

(** Keys of one kind: [lt] never raises on them, and it decides a strict
    total order among them. *)
Variable lt : K → K → outcome bool.
Variable good : K → Prop.
Hypothesis lt_good : ∀ a b, good a → good b → lt a b = Return (ltb a b).
Hypothesis ltb_irrefl : ∀ a, ltb a a = false.
Hypothesis ltb_trans :
  ∀ a b c, ltb a b = true → ltb b c = true → ltb a c = true.
Hypothesis ltb_total :
  ∀ a b, good a → good b → ltb a b = false → ltb b a = false → a = b.

Lemma insert_agrees x l :
  good x.1 → Forall (λ y, good y.1) l →
  insert lt x l = Return (insert_pure x l).
Proof.
  intros Hx Hl. induction Hl as [|y l Hy _ IH]; simpl; [done|].
  rewrite lt_good by done. simpl. destruct (ltb _ _); [|done].
  by rewrite IH.
Qed.

Lemma stable_sort_agrees l :
  Forall (λ y, good y.1) l → stable_sort lt l = Return (sort_pure l).
Proof.
  induction 1 as [|x l Hx Hl IH]; simpl; [done|].
  rewrite IH. simpl. apply insert_agrees; [done|].
  by rewrite sort_pure_perm.
Qed.

Lemma ltb_asym a b : ltb a b = true → ltb b a = false.
Proof.
  intros Hab. destruct (ltb b a) eqn:Hba; [|done].
  pose proof (ltb_trans a b a Hab Hba) as Haa.
  by rewrite ltb_irrefl in Haa.
Qed.

Lemma ltb_cotrans a b c :
  good a → good b →
  ltb b a = false → ltb c b = false → ltb c a = false.
Proof.
  intros Ha Hb Hba Hcb. destruct (ltb c a) eqn:Hca; [|done].
  destruct (ltb a b) eqn:Hab.
  - pose proof (ltb_trans c a b Hca Hab). congruence.
  - pose proof (ltb_total a b Ha Hb Hab Hba). congruence.
Qed.

(** [x] may stand before [y] in ascending order. *)
Definition not_after (x y : K * A) : Prop := ltb y.1 x.1 = false.

Lemma insert_pure_sorted x l :
  good x.1 → Forall (λ y, good y.1) l →
  StronglySorted not_after l → StronglySorted not_after (insert_pure x l).
Proof.
  intros Hx Hl Hs. induction Hs as [|y l Hs IH Hy]; simpl.
  - repeat constructor.
  - apply Forall_cons in Hl as [Hgy Hl].
    destruct (ltb y.1 x.1) eqn:Hyx.
    + constructor; [by apply IH|].
      rewrite insert_pure_perm. constructor; [|done].
      by apply ltb_asym.
    + constructor; [by constructor|].
      constructor; [done|].
      apply Forall_forall. intros z Hz. unfold not_after.
      apply (ltb_cotrans _ y.1); try done.
      by eapply Forall_forall in Hy.
Qed.

Lemma sort_pure_sorted l :
  Forall (λ y, good y.1) l → StronglySorted not_after (sort_pure l).
Proof.
  induction 1 as [|x l Hx Hl IH]; simpl; [constructor|].
  apply insert_pure_sorted; [done| |done]. by rewrite sort_pure_perm.
Qed.


End PureSort.

Lemma StronglySorted_reverse {A} (R : relation A) (l : list A) :
  StronglySorted R l → StronglySorted (flip R) (reverse l).
Proof.
  induction 1 as [|x l Hs IH Hx]; [constructor|].
  rewrite reverse_cons. apply StronglySorted_app_2; [|done|].
  2: { apply SSorted_cons; [apply SSorted_nil|apply List.Forall_nil]. }
  intros y z Hy Hz. apply list_elem_of_singleton in Hz. subst z.
  rewrite elem_of_reverse in Hy. unfold flip.
  rewrite Forall_forall in Hx. by apply Hx.
Qed.


(** [list.sort(key=..., reverse=...)] on items whose keys are of one kind:
    the sort of the decorated list, undecorated. *)
Section SortItems.
Context {K A : Type} `{EqDecision K}.
Variable ltb : K → K → bool.
Variable lt : K → K → outcome bool.
Variable good : K → Prop.
Hypothesis lt_good : ∀ a b, good a → good b → lt a b = Return (ltb a b).
Hypothesis ltb_irrefl : ∀ a, ltb a a = false.
Hypothesis ltb_trans :
  ∀ a b c, ltb a b = true → ltb b c = true → ltb a c = true.
Hypothesis ltb_total :
  ∀ a b, good a → good b → ltb a b = false → ltb b a = false → a = b.
Variable key : A → outcome K.
Variable keyp : A → K.

Definition decorate (l : list A) : list (K * A) := (λ x, (keyp x, x)) <$> l.

Definition sorted_items (reversed : bool) (l : list A) : list A :=
  let kv := decorate l in
  let s := sort_pure ltb (if reversed then reverse kv else kv) in
  (if reversed then reverse s else s).*2.

(** Where an item stands relative to a later one. *)
Definition in_order (reversed : bool) (x y : A) : Prop :=
  if reversed then ltb (keyp x) (keyp y) = false
  else ltb (keyp y) (keyp x) = false.

Definition keyed (p : K * A) : Prop := p.1 = keyp p.2.

Lemma zip_decorate l : zip (keyp <$> l) l = decorate l.
Proof. induction l as [|x l IH]; simpl; [done|]. by f_equal. Qed.

Lemma decorate_keyed l : Forall keyed (decorate l).
Proof. induction l; constructor; done. Qed.

Lemma undecorate l : (decorate l).*2 = l.
Proof. induction l as [|x l IH]; simpl; [done|]. by f_equal. Qed.

Lemma decorate_good l :
  Forall (λ x, good (keyp x)) l → Forall (λ p, good p.1) (decorate l).
Proof. induction 1; constructor; done. Qed.


Lemma StronglySorted_keyed (R : relation (K * A)) (R' : relation A) ps :
  Forall keyed ps →
  (∀ p q, keyed p → keyed q → R p q → R' p.2 q.2) →
  StronglySorted R ps → StronglySorted R' (ps.*2).
Proof.
  intros Hk HR Hs. induction Hs as [|p ps Hs IH Hp]; simpl; [constructor|].
  apply Forall_cons in Hk as [Hkp Hk].
  constructor; [by apply IH|].
  apply Forall_fmap, Forall_forall. intros q Hq. simpl.
  apply HR; try done.
  - by eapply Forall_forall in Hk.
  - rewrite Forall_forall in Hp. by apply Hp.
Qed.

Lemma sort_agrees reversed l :
  Forall (λ x, key x = Return (keyp x) ∧ good (keyp x)) l →
  sort lt key reversed l = Return (sorted_items reversed l).
Proof.
  intros Hl. apply Forall_and in Hl as [Hkey Hgood].
  unfold sort, sorted_items. rewrite (each_pure key keyp) by done. simpl.
  rewrite zip_decorate.
  rewrite (stable_sort_agrees ltb lt good); [done|done|].
  destruct reversed; [apply Forall_reverse|]; by apply decorate_good.
Qed.

Lemma sorted_items_perm reversed l : sorted_items reversed l ≡ₚ l.
Proof.
  unfold sorted_items.
  transitivity ((decorate l).*2); [|by rewrite undecorate].
  apply fmap_Permutation.
  destruct reversed; rewrite ?reverse_Permutation, sort_pure_perm,
    ?reverse_Permutation; done.
Qed.

Lemma sorted_pairs_keyed (reversed : bool) l :
  Forall keyed
    (let s := sort_pure ltb
                (if reversed then reverse (decorate l) else decorate l) in
     if reversed then reverse s else s).
Proof.
  simpl. destruct reversed;
    rewrite ?reverse_Permutation, sort_pure_perm, ?reverse_Permutation;
    apply decorate_keyed.
Qed.

Lemma sorted_items_ordered reversed l :
  Forall (λ x, good (keyp x)) l →
  StronglySorted (in_order reversed) (sorted_items reversed l).
Proof.
  intros Hgood. unfold sorted_items. simpl.
  pose proof (sorted_pairs_keyed reversed l) as Hk. simpl in Hk.
  destruct reversed.
  - eapply (StronglySorted_keyed (flip (not_after ltb))); [done| |].
    + intros p q Hp Hq. unfold flip, not_after, in_order, keyed in *.
      by rewrite Hp, Hq.
    + apply StronglySorted_reverse.
      apply (sort_pure_sorted ltb good); try done.
      by apply Forall_reverse, decorate_good.
  - eapply (StronglySorted_keyed (not_after ltb)); [done| |].
    + intros p q Hp Hq. unfold not_after, in_order, keyed in *.
      by rewrite Hp, Hq.
    + apply (sort_pure_sorted ltb good); try done.
      by apply decorate_good.
Qed.

End SortItems.

(** ** Slices *)

Lemma slice_window {A} (l : list A) (start len : Z) :
  0 ≤ start → 0 ≤ len →
  slice l start (start + len)
  = take (Z.to_nat len) (drop (Z.to_nat start) l).
Proof.
  intros Hs Hl. unfold slice, clamp.
  destruct (Z.ltb_spec start 0) as [?|_]; [lia|].
  destruct (Z.ltb_spec (start + len) 0) as [?|_]; [lia|].
  destruct (decide (Z.of_nat (length l) ≤ start)) as [Hge|Hlt].
  - rewrite !Z.min_r by lia. rewrite Z.sub_diag. simpl.
    by rewrite (drop_ge l (Z.to_nat start)), take_nil by lia.
  - rewrite (Z.min_l start) by lia.
    destruct (decide (start + len ≤ Z.of_nat (length l))) as [Hin|Hout].
    + rewrite Z.min_l by lia. do 2 f_equal. lia.
    + rewrite Z.min_r by lia.
      rewrite !take_ge; [done|rewrite length_drop; lia..].
Qed.

(** Composition of two selections. *)
Lemma filter_twice {A} (f g : A → bool) (l : list A) :
  List.filter g (List.filter f l) = List.filter (λ x, f x && g x) l.
Proof.
  induction l as [|x l IH]; simpl; [done|].
  destruct (f x); simpl; [|done]. destruct (g x); by rewrite IH.
Qed.

Lemma Forall_filter_bool {A} (P : A → Prop) (f : A → bool) (l : list A) :
  Forall P l → Forall P (List.filter f l).
Proof.
  induction 1 as [|x l Hx _ IH]; simpl; [constructor|].
  destruct (f x); [by constructor|done].
Qed.


(** ** Text: substrings, letter case and digits, said without the
    functions the handlers compute them with *)












(** A string of the ten digits [0] to [9]. *)
Definition digit_chars : list ascii :=
  ["0"; "1"; "2"; "3"; "4"; "5"; "6"; "7"; "8"; "9"]%char.

Fixpoint digits_0_9 (s : string) : Prop :=
  match s with
  | EmptyString => True
  | String c s' => c ∈ digit_chars ∧ digits_0_9 s'
  end.

Lemma is_digit_spec c : is_digit c = true ↔ c ∈ digit_chars.
Proof.
  split.
  - unfold is_digit. intros H.
    apply andb_true_iff in H as [Hlo Hhi]. apply N.leb_le in Hlo, Hhi.
    rewrite <- (ascii_N_embedding c).
    assert (N_of_ascii c = 48 ∨ N_of_ascii c = 49 ∨ N_of_ascii c = 50 ∨
            N_of_ascii c = 51 ∨ N_of_ascii c = 52 ∨ N_of_ascii c = 53 ∨
            N_of_ascii c = 54 ∨ N_of_ascii c = 55 ∨ N_of_ascii c = 56 ∨
            N_of_ascii c = 57)%N as Hc by lia.
    unfold digit_chars.
    repeat (destruct Hc as [-> |Hc];
            [repeat first [apply list_elem_of_here|apply list_elem_of_further]|]).
    rewrite Hc.
    repeat first [apply list_elem_of_here|apply list_elem_of_further].
  - unfold digit_chars. intros H.
    repeat (apply elem_of_cons in H as [-> |H]; [done|]).
    by apply elem_of_nil in H.
Qed.

Lemma all_digits_spec s : all_digits s = true ↔ digits_0_9 s.
Proof.
  induction s as [|c s IH]; simpl; [done|].
  by rewrite andb_true_iff, is_digit_spec, IH.
Qed.


End PyFacts.

(* ===================================================================== *)
(** * The User Service: invariants and properties                         *)
(* ===================================================================== *)

Module UserService.
Import Py PyFacts App.

(** ** Stores the service can be in *)

Inductive reachable : Store → Prop :=
| reachable_init : reachable init
| reachable_step r st : reachable st → reachable (handle r st).2.

(** The store after a sequence of requests, and the ids the successful
    creations among them returned, oldest first. *)
Fixpoint run (trace : list request) (st : Store) : Store :=
  match trace with
  | [] => st
  | r :: trace' => run trace' (handle r st).2
  end.

Definition created_id (r : request) (o : outcome body) : list Z :=
  match r, o with
  | POST_users _ _, Return (User u) =>
      match u !! "id" with
      | Some (VInt n) => [n]
      | _ => []
      end
  | _, _ => []
  end.

Fixpoint issued (trace : list request) (st : Store) : list Z :=
  match trace with
  | [] => []
  | r :: trace' =>
      created_id r (handle r st).1 ++ issued trace' (handle r st).2
  end.

(** ** Reading a stored user *)

Definition uid (u : gmap string value) : Z :=
  match u !! "id" with
  | Some (VInt n) => n
  | _ => 0
  end.

Definition uemail (u : gmap string value) : string :=
  match u !! "email" with
  | Some (VStr e) => e
  | _ => EmptyString
  end.

Definition has_id (u : gmap string value) : Prop :=
  ∃ n, u !! "id" = Some (VInt n).

Definition has_email (u : gmap string value) : Prop :=
  ∃ e, u !! "email" = Some (VStr e).

(** The email-uniqueness invariant of the specification: every live user
    holds an email, and two live users whose emails agree up to case are
    the same entry of the store. *)
Definition unique_emails (st : Store) : Prop :=
  Forall has_email (USERS st) ∧
  ∀ i j u v e1 e2,
    USERS st !! i = Some u → USERS st !! j = Some v →
    u !! "email" = Some (VStr e1) → v !! "email" = Some (VStr e2) →
    lower e1 = lower e2 → i = j.

(** What every reachable store satisfies. *)
Record store_inv (st : Store) : Prop := {
  inv_id : Forall has_id (USERS st);
  inv_email : Forall has_email (USERS st);
  inv_below : Forall (λ u, 1 ≤ uid u < USER_ID st) (USERS st);
  inv_ids : NoDup (uid <$> USERS st);
  inv_emails : NoDup ((λ u, lower (uemail u)) <$> USERS st);
  inv_counter : 1 ≤ USER_ID st;
}.

(** ** Lookups in the dicts the handlers build *)

Lemma dict_lookup (user : UserCreate.t) :
  UserCreate.dict user !! "name" = Some (VStr (UserCreate.name user)) ∧
  UserCreate.dict user !! "email" = Some (VStr (UserCreate.email user)) ∧
  UserCreate.dict user !! "age" = Some (VInt (UserCreate.age user)) ∧
  UserCreate.dict user !! "bio"
    = Some (of_optional VStr (UserCreate.bio user)) ∧
  UserCreate.dict user !! "addresses"
    = Some (VAddrs (UserCreate.addresses user)) ∧
  UserCreate.dict user !! "id" = None ∧
  UserCreate.dict user !! "created_at" = None.
Proof. unfold UserCreate.dict. repeat split; by simplify_map_eq. Qed.

Lemma new_user_lookup (user : UserCreate.t) utcnow n :
  let u := new_user user utcnow n in
  u !! "id" = Some (VInt n) ∧
  u !! "name" = Some (VStr (UserCreate.name user)) ∧
  u !! "email" = Some (VStr (UserCreate.email user)) ∧
  u !! "age" = Some (VInt (UserCreate.age user)) ∧
  u !! "bio" = Some (of_optional VStr (UserCreate.bio user)) ∧
  u !! "addresses" = Some (VAddrs (UserCreate.addresses user)) ∧
  u !! "created_at" = Some (VDatetime utcnow).
Proof.
  unfold new_user, UserCreate.dict. simpl.
  repeat split; rewrite ?lookup_insert_eq; try done;
    (rewrite lookup_insert_ne by done);
    rewrite lookup_union_Some_raw; simplify_map_eq; eauto.
Qed.

Lemma changes_lookup (c : UserUpdate.t) :
  let d := UserUpdate.dict_exclude_unset c in
  d !! "name" = of_optional VStr <$> UserUpdate.name c ∧
  d !! "email" = of_optional VStr <$> UserUpdate.email c ∧
  d !! "age" = of_optional VInt <$> UserUpdate.age c ∧
  d !! "bio" = of_optional VStr <$> UserUpdate.bio c ∧
  d !! "addresses" = of_optional VAddrs <$> UserUpdate.addresses c ∧
  d !! "id" = None ∧
  d !! "created_at" = None.
Proof.
  unfold UserUpdate.dict_exclude_unset, UserUpdate.put.
  destruct c as [[?|] [?|] [?|] [?|] [?|]]; simpl;
    repeat split; by simplify_map_eq.
Qed.

Lemma uid_union d u : d !! "id" = None → uid (d ∪ u) = uid u.
Proof. intros Hd. unfold uid. by rewrite lookup_union_r. Qed.

Lemma has_id_union d u : d !! "id" = None → has_id u → has_id (d ∪ u).
Proof. intros Hd [n Hn]. exists n. by rewrite lookup_union_r. Qed.

Lemma has_id_uid u : has_id u → u !! "id" = Some (VInt (uid u)).
Proof. intros [n Hn]. unfold uid. by rewrite Hn. Qed.

Lemma has_email_uemail u : has_email u → u !! "email" = Some (VStr (uemail u)).
Proof. intros [n Hn]. unfold uemail. by rewrite Hn. Qed.

Lemma uemail_union_keep d u :
  d !! "email" = None → uemail (d ∪ u) = uemail u.
Proof. intros Hd. unfold uemail. by rewrite lookup_union_r. Qed.

Lemma uemail_union_set d u e :
  d !! "email" = Some (VStr e) → uemail (d ∪ u) = e.
Proof.
  intros Hd. unfold uemail.
  by rewrite (lookup_union_Some_l d u _ _ Hd).
Qed.

Lemma has_email_union d u :
  (d !! "email" = None ∨ ∃ e, d !! "email" = Some (VStr e)) →
  has_email u → has_email (d ∪ u).
Proof.
  intros [Hd|[e Hd]] [e' He'].
  - exists e'. by rewrite lookup_union_r.
  - exists e. by apply lookup_union_Some_l.
Qed.

(** ** The helper and the duplicate checks on a well-formed store *)

Lemma find_from_spec i user_id l :
  Forall has_id l →
  find_from i user_id l =
  Return (match list_find (λ u, uid u = user_id) l with
          | Some (k, _) => i + Z.of_nat k
          | None => -1
          end).
Proof.
  intros Hl. revert i. induction Hl as [|u l Hu _ IH]; intros i; [done|].
  simpl. unfold getitem. rewrite (has_id_uid u Hu). simpl.
  destruct (decide (uid u = user_id)) as [->|Hne]; simpl.
  - rewrite Z.eqb_refl. f_equal. lia.
  - destruct (Z.eqb_spec (uid u) user_id) as [?|_]; [done|].
    rewrite IH. destruct (list_find _ l) as [[k v]|]; simpl; [|done].
    f_equal. lia.
Qed.

(** The helper answers [-1] exactly when no user carries the id, and
    otherwise the position of the first user that does. *)
Lemma find_absent user_id st :
  Forall has_id (USERS st) →
  (∀ u, u ∈ USERS st → uid u ≠ user_id) →
  _find_user_index user_id st = Return (-1).
Proof.
  intros Hid Habs. unfold _find_user_index. rewrite find_from_spec by done.
  destruct (list_find _ _) as [[k v]|] eqn:E; [|done].
  apply list_find_Some in E as (Hk & Hv & _).
  exfalso. eapply Habs; [|done]. eapply list_elem_of_lookup_2; eauto.
Qed.

Lemma find_present user_id st k u :
  Forall has_id (USERS st) → NoDup (uid <$> USERS st) →
  USERS st !! k = Some u → uid u = user_id →
  _find_user_index user_id st = Return (Z.of_nat k).
Proof.
  intros Hid Hnd Hk Hu. unfold _find_user_index.
  rewrite find_from_spec by done.
  destruct (list_find _ _) as [[k' v]|] eqn:E.
  - apply list_find_Some in E as (Hk' & Hv & _).
    assert (k' = k) as ->; [|f_equal; lia].
    eapply (proj1 (NoDup_alt _) Hnd k' k (uid u));
      rewrite list_lookup_fmap; [rewrite Hk'|rewrite Hk]; simpl; congruence.
  - eapply list_find_None, Forall_lookup_1 in E; [|done]. done.
Qed.

Lemma find_cases user_id st :
  Forall has_id (USERS st) →
  (_find_user_index user_id st = Return (-1) ∧
   ∀ u, u ∈ USERS st → uid u ≠ user_id) ∨
  (∃ k u, _find_user_index user_id st = Return (Z.of_nat k) ∧
          USERS st !! k = Some u ∧ uid u = user_id).
Proof.
  intros Hid. unfold _find_user_index. rewrite find_from_spec by done.
  destruct (list_find _ _) as [[k v]|] eqn:E.
  - right. apply list_find_Some in E as (Hk & Hv & _).
    exists k, v. repeat split; done.
  - left. split; [done|]. intros u Hu.
    eapply list_find_None in E. by eapply Forall_forall in E.
Qed.

Definition same_lowered (email : string) (u : gmap string value) : bool :=
  bool_decide (lower (uemail u) = lower email).

Definition other_holds (email : string) (user_id : Z)
    (u : gmap string value) : bool :=
  same_lowered email u && negb (uid u =? user_id).

Lemma any_same_email email l :
  Forall has_email l →
  any (same_email email) l = Return (existsb (same_lowered email) l).
Proof.
  intros Hl. apply any_pure. eapply Forall_impl; [done|].
  intros u Hu. unfold same_email, getitem, same_lowered.
  by rewrite (has_email_uemail u Hu).
Qed.

Lemma any_held_by_other email user_id l :
  Forall has_email l → Forall has_id l →
  any (held_by_other email user_id) l
  = Return (existsb (other_holds email user_id) l).
Proof.
  intros He Hi. apply any_pure.
  eapply Forall_impl; [apply Forall_and; split; [exact He|exact Hi]|].
  intros u [Hue Hui]. unfold held_by_other, same_email, getitem.
  unfold other_holds, same_lowered.
  rewrite (has_email_uemail u Hue), (has_id_uid u Hui). simpl.
  by case_bool_decide.
Qed.

Lemma any_patch_check_str email user_id l :
  Forall has_email l → Forall has_id l →
  any (patch_email_check (VStr email) user_id) l
  = Return (existsb (other_holds email user_id) l).
Proof.
  intros He Hi. apply any_pure.
  eapply Forall_impl; [apply Forall_and; split; [exact He|exact Hi]|].
  intros u [Hue Hui]. unfold patch_email_check, getitem.
  unfold other_holds, same_lowered.
  rewrite (has_email_uemail u Hue), (has_id_uid u Hui). simpl.
  by case_bool_decide.
Qed.

(** With [null] under ["email"] the check fails on the first user. *)
Lemma any_patch_check_None user_id l :
  Forall has_email l → l ≠ [] →
  any (patch_email_check VNone user_id) l = Raise AttributeError.
Proof.
  intros He Hl. destruct He as [|u l Hu _]; [done|].
  simpl. unfold patch_email_check, getitem.
  by rewrite (has_email_uemail u Hu).
Qed.

(** ** What each handler does on a well-formed store *)

Lemma index_lookup {A} (l : list A) k x :
  l !! k = Some x → index l (Z.of_nat k) = Return x.
Proof. unfold index. rewrite Nat2Z.id. by intros ->. Qed.

Lemma found_not_minus_one (k : nat) : (Z.of_nat k =? -1) = false.
Proof. apply Z.eqb_neq. lia. Qed.

Definition appended (u : gmap string value) (st : Store) : Store :=
  {| USERS := USERS st ++ [u]; USER_ID := USER_ID st + 1 |}.

Definition updated (k : nat) (u : gmap string value) (st : Store) : Store :=
  {| USERS := <[k := u]> (USERS st); USER_ID := USER_ID st |}.

Definition removed (k : nat) (st : Store) : Store :=
  {| USERS := delete k (USERS st); USER_ID := USER_ID st |}.

Lemma update_at_lookup k d u st :
  USERS st !! k = Some u →
  update_at (Z.of_nat k) d st = (Return (d ∪ u), updated k (d ∪ u) st).
Proof.
  intros Hk. unfold update_at. rewrite (index_lookup _ _ _ Hk).
  by rewrite Nat2Z.id.
Qed.

Lemma create_user_spec user utcnow st :
  store_inv st → UserCreate.valid user = true →
  create_user user utcnow st =
  if existsb (same_lowered (UserCreate.email user)) (USERS st)
  then (Raise (DuplicateEmailError (UserCreate.email user)), st)
  else (Return (new_user user utcnow (USER_ID st)),
        appended (new_user user utcnow (USER_ID st)) st).
Proof.
  intros Hinv Hv. unfold create_user. rewrite Hv. simpl.
  rewrite any_same_email by apply Hinv.
  by destruct (existsb _ _).
Qed.

Lemma replace_user_spec user_id payload st k u :
  store_inv st → UserCreate.valid payload = true →
  USERS st !! k = Some u → uid u = user_id →
  replace_user user_id payload st =
  if existsb (other_holds (UserCreate.email payload) user_id) (USERS st)
  then (Raise (DuplicateEmailError (UserCreate.email payload)), st)
  else (Return (UserCreate.dict payload ∪ u),
        updated k (UserCreate.dict payload ∪ u) st).
Proof.
  intros Hinv Hv Hk Hu. unfold replace_user. rewrite Hv. simpl.
  rewrite (find_present user_id st k u) by (done || apply Hinv).
  rewrite found_not_minus_one.
  rewrite any_held_by_other by apply Hinv.
  destruct (existsb _ _); [done|]. by apply update_at_lookup.
Qed.

Lemma patch_user_spec user_id changes st k u :
  store_inv st → UserUpdate.valid changes = true →
  USERS st !! k = Some u → uid u = user_id →
  let d := UserUpdate.dict_exclude_unset changes in
  patch_user user_id changes st =
  match UserUpdate.email changes with
  | Some None => (Raise AttributeError, st)
  | Some (Some e) =>
      if existsb (other_holds e user_id) (USERS st)
      then (Raise (DuplicateEmailError e), st)
      else (Return (d ∪ u), updated k (d ∪ u) st)
  | None => (Return (d ∪ u), updated k (d ∪ u) st)
  end.
Proof.
  intros Hinv Hv Hk Hu d. unfold patch_user. rewrite Hv. simpl.
  rewrite (find_present user_id st k u) by (done || apply Hinv).
  rewrite found_not_minus_one.
  destruct (changes_lookup changes) as (_ & -> & _).
  destruct (UserUpdate.email changes) as [[e|]|]; simpl.
  - rewrite any_patch_check_str by apply Hinv.
    destruct (existsb _ _); [done|]. by apply update_at_lookup.
  - rewrite any_patch_check_None; [done|apply Hinv|].
    intros E. by rewrite E in Hk.
  - by apply update_at_lookup.
Qed.

Lemma delete_user_spec user_id st k u :
  store_inv st → USERS st !! k = Some u → uid u = user_id →
  delete_user user_id st
  = (Return ("User " +:+ pretty user_id +:+ " deleted"), removed k st).
Proof.
  intros Hinv Hk Hu. unfold delete_user.
  rewrite (find_present user_id st k u) by (done || apply Hinv).
  rewrite found_not_minus_one, (index_lookup _ _ _ Hk).
  by rewrite Nat2Z.id.
Qed.

(** ** The invariant is preserved *)

Lemma store_inv_init : store_inv init.
Proof. split; simpl; try constructor; done. Qed.

Lemma store_inv_appended user utcnow st :
  store_inv st →
  existsb (same_lowered (UserCreate.email user)) (USERS st) = false →
  store_inv (appended (new_user user utcnow (USER_ID st)) st).
Proof.
  intros [Hid Hem Hbelow Hids Hems Hc] Hfresh.
  destruct (new_user_lookup user utcnow (USER_ID st))
    as (Hnid & _ & Hnem & _).
  assert (uid (new_user user utcnow (USER_ID st)) = USER_ID st) as Huid
    by (unfold uid; by rewrite Hnid).
  assert (uemail (new_user user utcnow (USER_ID st)) = UserCreate.email user)
    as Huem by (unfold uemail; by rewrite Hnem).
  split; simpl.
  - apply Forall_app; split; [done|]. repeat constructor. by eexists.
  - apply Forall_app; split; [done|]. repeat constructor. by eexists.
  - apply Forall_app; split.
    + eapply Forall_impl; [done|]. simpl. intros; lia.
    + repeat constructor; rewrite Huid; lia.
  - rewrite fmap_app. apply NoDup_app. split; [done|]. split.
    + intros n Hn Hn'. apply list_elem_of_singleton in Hn'. subst n.
      apply list_elem_of_fmap in Hn as (u & Hu & Hin).
      eapply Forall_forall in Hbelow; [|done]. rewrite Huid in Hu. lia.
    + apply NoDup_singleton.
  - rewrite fmap_app. apply NoDup_app. split; [done|]. split.
    + intros e He He'. apply list_elem_of_singleton in He'. subst e.
      apply list_elem_of_fmap in He as (u & Hu & Hin).
      apply existsb_false_Forall in Hfresh.
      eapply Forall_forall in Hfresh; [|done].
      unfold same_lowered in Hfresh. apply bool_decide_eq_false in Hfresh.
      rewrite Huem in Hu. congruence.
    + apply NoDup_singleton.
  - lia.
Qed.

Lemma store_inv_updated k d u st :
  store_inv st → USERS st !! k = Some u →
  d !! "id" = None →
  (d !! "email" = None ∨
   ∃ e, d !! "email" = Some (VStr e) ∧
        existsb (other_holds e (uid u)) (USERS st) = false) →
  store_inv (updated k (d ∪ u) st).
Proof.
  intros [Hid Hem Hbelow Hids Hems Hc] Hk Hdid Hdem.
  split; simpl; [| | | | |done].
  - apply Forall_insert; [done|]. apply has_id_union; [done|].
    by eapply Forall_lookup_1.
  - apply Forall_insert; [done|]. apply has_email_union.
    + destruct Hdem as [?|(e & ? & _)]; eauto.
    + by eapply Forall_lookup_1.
  - apply Forall_insert; [done|]. rewrite uid_union by done.
    by eapply (Forall_lookup_1 _ _ _ _ Hbelow).
  - rewrite list_fmap_insert, uid_union by done.
    rewrite list_insert_id; [done|]. by rewrite list_lookup_fmap, Hk.
  - rewrite list_fmap_insert. simpl.
    destruct Hdem as [Hd|(e & Hd & Hfresh)].
    + rewrite uemail_union_keep by done.
      rewrite list_insert_id; [done|]. by rewrite list_lookup_fmap, Hk.
    + rewrite (uemail_union_set _ _ _ Hd).
      apply NoDup_insert_fresh; [done|].
      intros j y Hj Hne.
      rewrite list_lookup_fmap in Hj.
      destruct (USERS st !! j) as [v|] eqn:Hv; [|done].
      injection Hj as <-.
      apply existsb_false_Forall in Hfresh.
      eapply Forall_lookup_1 in Hfresh; [|exact Hv].
      unfold other_holds, same_lowered in Hfresh.
      apply andb_false_iff in Hfresh as [Hf|Hf].
      * by apply bool_decide_eq_false in Hf.
      * apply negb_false_iff, Z.eqb_eq in Hf. exfalso. apply Hne.
        eapply (proj1 (NoDup_alt _) Hids j k (uid v));
          rewrite list_lookup_fmap; [rewrite Hv|rewrite Hk]; simpl;
          congruence.
Qed.

Lemma store_inv_removed k st : store_inv st → store_inv (removed k st).
Proof.
  intros [Hid Hem Hbelow Hids Hems Hc].
  split; simpl; [| | | | |done]; try by apply Forall_delete.
  - rewrite list_fmap_delete. eapply sublist_NoDup; [|apply sublist_delete]; done.
  - rewrite list_fmap_delete. eapply sublist_NoDup; [|apply sublist_delete]; done.
Qed.

Lemma replace_user_absent user_id payload st :
  Forall has_id (USERS st) → UserCreate.valid payload = true →
  (∀ u, u ∈ USERS st → uid u ≠ user_id) →
  replace_user user_id payload st = (Raise (not_found user_id), st).
Proof.
  intros Hid Hv Habs. unfold replace_user.
  by rewrite Hv, find_absent.
Qed.

Lemma patch_user_absent user_id changes st :
  Forall has_id (USERS st) → UserUpdate.valid changes = true →
  (∀ u, u ∈ USERS st → uid u ≠ user_id) →
  patch_user user_id changes st = (Raise (not_found user_id), st).
Proof.
  intros Hid Hv Habs. unfold patch_user.
  by rewrite Hv, find_absent.
Qed.

Lemma delete_user_absent user_id st :
  Forall has_id (USERS st) →
  (∀ u, u ∈ USERS st → uid u ≠ user_id) →
  delete_user user_id st = (Raise (not_found user_id), st).
Proof.
  intros Hid Habs. unfold delete_user. by rewrite find_absent.
Qed.

Lemma get_user_absent user_id include_addresses st :
  Forall has_id (USERS st) → 1 ≤ user_id →
  (∀ u, u ∈ USERS st → uid u ≠ user_id) →
  get_user user_id include_addresses st = Raise (not_found user_id).
Proof.
  intros Hid Hge Habs. unfold get_user.
  destruct (Z.leb_spec 1 user_id) as [_|?]; [|lia]. simpl.
  by rewrite find_absent.
Qed.

Lemma handle_inv r st : store_inv st → store_inv (handle r st).2.
Proof.
  intros Hinv. pose proof (inv_id st Hinv) as Hid.
  destruct r as [user utcnow|user_id payload|user_id changes|user_id]; simpl.
  - destruct (UserCreate.valid user) eqn:Hv.
    + rewrite create_user_spec by done.
      destruct (existsb _ _) eqn:E; [done|]. by apply store_inv_appended.
    + unfold create_user. by rewrite Hv.
  - destruct (UserCreate.valid payload) eqn:Hv;
      [|unfold replace_user; by rewrite Hv].
    destruct (find_cases user_id st Hid) as [[_ Habs]|(k & u & _ & Hk & Hu)].
    + by rewrite replace_user_absent.
    + rewrite (replace_user_spec _ _ _ k u) by done.
      destruct (existsb _ _) eqn:E; [done|]. simpl.
      destruct (dict_lookup payload) as (_ & Hem & _ & _ & _ & Hnid & _).
      apply store_inv_updated; try done.
      right. eexists. split; [done|]. by rewrite Hu.
  - destruct (UserUpdate.valid changes) eqn:Hv;
      [|unfold patch_user; by rewrite Hv].
    destruct (find_cases user_id st Hid) as [[_ Habs]|(k & u & _ & Hk & Hu)].
    + by rewrite patch_user_absent.
    + rewrite (patch_user_spec _ _ _ k u) by done.
      destruct (changes_lookup changes) as (_ & Hem & _ & _ & _ & Hnid & _).
      destruct (UserUpdate.email changes) as [[e|]|] eqn:Hmail; simpl.
      * destruct (existsb _ _) eqn:E; [done|]. simpl.
        apply store_inv_updated; try done.
        right. exists e. split; [done|]. by rewrite Hu.
      * done.
      * apply store_inv_updated; try done. by left.
  - destruct (find_cases user_id st Hid) as [[_ Habs]|(k & u & _ & Hk & Hu)].
    + by rewrite delete_user_absent.
    + rewrite (delete_user_spec _ _ k u) by done. by apply store_inv_removed.
Qed.

Lemma reachable_inv st : reachable st → store_inv st.
Proof.
  induction 1 as [|r st _ IH]; [apply store_inv_init | by apply handle_inv].
Qed.

Lemma run_inv trace st : store_inv st → store_inv (run trace st).
Proof.
  revert st. induction trace as [|r trace IH]; intros st Hinv; [done|].
  simpl. by apply IH, handle_inv.
Qed.

Lemma run_reachable trace st : reachable st → reachable (run trace st).
Proof.
  revert st. induction trace as [|r trace IH]; intros st Hst; [done|].
  simpl. by apply IH, reachable_step.
Qed.

(** ** Between the lookups of a statement and the projections *)

Lemma uid_lookup u n : u !! "id" = Some (VInt n) → uid u = n.
Proof. intros H. unfold uid. by rewrite H. Qed.

Lemma uemail_lookup u e : u !! "email" = Some (VStr e) → uemail u = e.
Proof. intros H. unfold uemail. by rewrite H. Qed.

Lemma uid_absent st user_id :
  Forall has_id (USERS st) →
  (∀ u, u ∈ USERS st → u !! "id" ≠ Some (VInt user_id)) →
  ∀ u, u ∈ USERS st → uid u ≠ user_id.
Proof.
  intros Hid Habs u Hu E. apply (Habs u Hu). rewrite <- E.
  apply has_id_uid. by eapply Forall_forall in Hid.
Qed.

Lemma store_inv_unique_emails st : store_inv st → unique_emails st.
Proof.
  intros Hinv. split; [apply Hinv|].
  intros i j u v e1 e2 Hi Hj Hu Hv Hlow.
  eapply (proj1 (NoDup_alt _) (inv_emails st Hinv) i j (lower e1));
    rewrite list_lookup_fmap; [rewrite Hi|rewrite Hj]; simpl.
  - by rewrite (uemail_lookup _ _ Hu).
  - by rewrite (uemail_lookup _ _ Hv), Hlow.
Qed.

Lemma other_holds_witness st user_id email u e :
  Forall has_id (USERS st) →
  u ∈ USERS st → u !! "id" ≠ Some (VInt user_id) →
  u !! "email" = Some (VStr e) → lower e = lower email →
  existsb (other_holds email user_id) (USERS st) = true.
Proof.
  intros Hid Hu Hne He Hlow. apply existsb_true_elem. exists u.
  split; [done|]. unfold other_holds, same_lowered.
  rewrite (uemail_lookup _ _ He), bool_decide_eq_true_2 by done. simpl.
  apply negb_true_iff, Z.eqb_neq. intros E. apply Hne. rewrite <- E.
  apply has_id_uid. by eapply Forall_forall in Hid.
Qed.

Lemma other_holds_none st user_id email :
  (∀ v e, v ∈ USERS st → v !! "id" ≠ Some (VInt user_id) →
          v !! "email" = Some (VStr e) → lower e ≠ lower email) →
  store_inv st →
  existsb (other_holds email user_id) (USERS st) = false.
Proof.
  intros Hfree Hinv. apply existsb_false_Forall, Forall_forall.
  intros v Hv. unfold other_holds, same_lowered.
  pose proof (inv_id st Hinv) as Hid. pose proof (inv_email st Hinv) as Hem.
  eapply Forall_forall in Hid, Hem; [|done..].
  destruct (Z.eqb_spec (uid v) user_id) as [E|Hne];
    [by rewrite andb_false_r|].
  rewrite andb_true_r. apply bool_decide_eq_false.
  apply (Hfree v (uemail v) Hv); [|by apply has_email_uemail].
  rewrite (has_id_uid v Hid). congruence.
Qed.

(** ** Ids issued along a run *)

Lemma handle_counter r st :
  store_inv st →
  USER_ID st ≤ USER_ID (handle r st).2 ∧
  created_id r (handle r st).1
  = seqZ (USER_ID st) (USER_ID (handle r st).2 - USER_ID st).
Proof.
  intros Hinv.
  destruct r as [user utcnow|user_id payload|user_id changes|user_id]; simpl.
  - destruct (UserCreate.valid user) eqn:Hv.
    + rewrite create_user_spec by done.
      destruct (existsb _ _); simpl.
      * rewrite Z.sub_diag. split; [lia|done].
      * destruct (new_user_lookup user utcnow (USER_ID st)) as [-> _].
        split; [lia|]. replace (USER_ID st + 1 - USER_ID st) with 1 by lia.
        reflexivity.
    + unfold create_user. rewrite Hv. simpl. rewrite Z.sub_diag.
      split; [lia|done].
  - assert (USER_ID (replace_user user_id payload st).2 = USER_ID st) as ->.
    { unfold replace_user, update_at. by repeat case_match. }
    rewrite Z.sub_diag. split; [lia|done].
  - assert (USER_ID (patch_user user_id changes st).2 = USER_ID st) as ->.
    { unfold patch_user, update_at. by repeat case_match. }
    rewrite Z.sub_diag. split; [lia|done].
  - assert (USER_ID (delete_user user_id st).2 = USER_ID st) as ->.
    { unfold delete_user. by repeat case_match. }
    rewrite Z.sub_diag. split; [lia|done].
Qed.

Lemma issued_run trace st :
  store_inv st →
  USER_ID st ≤ USER_ID (run trace st) ∧
  issued trace st = seqZ (USER_ID st) (USER_ID (run trace st) - USER_ID st).
Proof.
  revert st. induction trace as [|r trace IH]; intros st Hinv; simpl.
  - rewrite Z.sub_diag. split; [lia|done].
  - destruct (handle_counter r st Hinv) as [Hle ->].
    destruct (IH _ (handle_inv r st Hinv)) as [Hle' ->].
    split; [lia|].
    set (a := USER_ID st) in *. set (b := USER_ID (handle r st).2) in *.
    set (c := USER_ID (run trace (handle r st).2)) in *.
    replace (c - a) with ((b - a) + (c - b)) by lia.
    rewrite seqZ_app by lia. do 2 f_equal. lia.
Qed.

Lemma get_user_present user_id include_addresses st k u :
  store_inv st → USERS st !! k = Some u → uid u = user_id →
  get_user user_id include_addresses st
  = Return (if include_addresses then u else <["addresses" := VAddrs []]> u).
Proof.
  intros Hinv Hk Hu. unfold get_user.
  pose proof (Forall_lookup_1 _ _ _ _ (inv_below st Hinv) Hk) as Hb.
  simpl in Hb. destruct (Z.leb_spec 1 user_id) as [_|?]; [|lia]. simpl.
  rewrite (find_present user_id st k u) by (done || apply Hinv). simpl.
  rewrite found_not_minus_one. by rewrite (index_lookup _ _ _ Hk).
Qed.


Lemma email_taken st email u e :
  u ∈ USERS st → u !! "email" = Some (VStr e) → lower e = lower email →
  existsb (same_lowered email) (USERS st) = true.
Proof.
  intros Hu He Hlow. apply existsb_true_elem. exists u. split; [done|].
  unfold same_lowered. rewrite (uemail_lookup _ _ He).
  by apply bool_decide_eq_true.
Qed.


(** ** The scenario of the specification *)

Definition ann : UserCreate.t :=
  {| UserCreate.name := "Ann Lee"; UserCreate.email := "Ann@x.com";
     UserCreate.age := 30; UserCreate.bio := None;
     UserCreate.addresses := [] |}.

Definition bob : UserCreate.t :=
  {| UserCreate.name := "Bob"; UserCreate.email := "ann@X.com";
     UserCreate.age := 22; UserCreate.bio := None;
     UserCreate.addresses := [] |}.

Definition cleo : UserCreate.t :=
  {| UserCreate.name := "Cleo"; UserCreate.email := "cleo@x.com";
     UserCreate.age := 41; UserCreate.bio := Some "Hi";
     UserCreate.addresses := [ {| city := "Pune"; country := "India" |} ] |}.

(** The store after Ann has been created at time 0. *)
Definition ann_created : Store := (handle (POST_users ann 0) init).2.

Definition ann_stored : gmap string value := new_user ann 0 1.

(** A change set that supplies only [null]s. *)
Definition null_email : UserUpdate.t :=
  {| UserUpdate.name := None; UserUpdate.email := Some None;
     UserUpdate.age := None; UserUpdate.bio := None;
     UserUpdate.addresses := None |}.

Definition null_name_age : UserUpdate.t :=
  {| UserUpdate.name := Some None; UserUpdate.email := None;
     UserUpdate.age := Some None; UserUpdate.bio := Some None;
     UserUpdate.addresses := None |}.

Definition null_name : UserUpdate.t :=
  {| UserUpdate.name := Some None; UserUpdate.email := None;
     UserUpdate.age := None; UserUpdate.bio := None;
     UserUpdate.addresses := None |}.

(** Bob as the handler is given him: [EmailStr] has put the part after the
    [@] of [ann@X.com] in lower case. *)
Definition bob_model : UserCreate.t :=
  {| UserCreate.name := "Bob"; UserCreate.email := "ann@x.com";
     UserCreate.age := 22; UserCreate.bio := None;
     UserCreate.addresses := [] |}.

Lemma ann_created_reachable : reachable ann_created.
Proof. apply reachable_step, reachable_init. Qed.

Lemma ann_created_users : USERS ann_created = [ann_stored].
Proof. by vm_compute. Qed.

(** *** Addresses *)





(** *** From the handler's return to the answer *)

(** The values a reachable store holds under the seven keys of a user:
    Create and Replace put there what the data model asks for, PatchPartial
    also [None] wherever the body supplied [null], [email] apart. *)
Record shaped (u : gmap string value) : Prop := {
  shaped_id : ∃ n, u !! "id" = Some (VInt n);
  shaped_name : u !! "name" = Some VNone ∨ ∃ s, u !! "name" = Some (VStr s);
  shaped_email : ∃ e, u !! "email" = Some (VStr e);
  shaped_age : u !! "age" = Some VNone ∨ ∃ n, u !! "age" = Some (VInt n);
  shaped_bio : u !! "bio" = Some VNone ∨ ∃ s, u !! "bio" = Some (VStr s);
  shaped_addresses :
    u !! "addresses" = Some VNone ∨
    ∃ l, u !! "addresses" = Some (VAddrs l) ∧ forallb Address_valid l = true;
  shaped_created_at : ∃ t, u !! "created_at" = Some (VDatetime t);
}.

(** A user the response model refuses: a key that must hold a value holds
    [None]. *)
Definition null_field (u : gmap string value) : Prop :=
  u !! "name" = Some VNone ∨ u !! "age" = Some VNone ∨
  u !! "addresses" = Some VNone.

Lemma valid_addresses user :
  UserCreate.valid user = true →
  forallb Address_valid (UserCreate.addresses user) = true.
Proof.
  unfold UserCreate.valid. rewrite !andb_true_iff. tauto.
Qed.

Lemma of_optional_str (b : option string) :
  of_optional VStr b = VNone ∨ ∃ s, of_optional VStr b = VStr s.
Proof. destruct b; simpl; eauto. Qed.

Lemma shaped_new_user user utcnow n :
  UserCreate.valid user = true → shaped (new_user user utcnow n).
Proof.
  intros Hv.
  destruct (new_user_lookup user utcnow n)
    as (Hi & Hn & He & Ha & Hb & Had & Hc).
  split; eauto.
  - rewrite Hb. destruct (of_optional_str (UserCreate.bio user))
      as [-> |[s ->]]; eauto.
  - right. eexists. split; [done|]. by apply valid_addresses.
Qed.

Lemma shaped_dict payload u :
  UserCreate.valid payload = true → shaped u →
  shaped (UserCreate.dict payload ∪ u).
Proof.
  intros Hv [Hi Hn He Ha Hb Had Hc].
  destruct (dict_lookup payload) as (Hn' & He' & Ha' & Hb' & Had' & Hi' & Hc').
  split.
  - by rewrite lookup_union_r.
  - right. eexists. by apply lookup_union_Some_l.
  - eexists. by apply lookup_union_Some_l.
  - right. eexists. by apply lookup_union_Some_l.
  - rewrite (lookup_union_Some_l _ u _ _ Hb').
    destruct (of_optional_str (UserCreate.bio payload)) as [-> |[s ->]]; eauto.
  - right. eexists. split; [by apply lookup_union_Some_l|].
    by apply valid_addresses.
  - by rewrite lookup_union_r.
Qed.

Lemma shaped_changes changes u :
  UserUpdate.valid changes = true →
  UserUpdate.email changes ≠ Some None →
  shaped u → shaped (UserUpdate.dict_exclude_unset changes ∪ u).
Proof.
  intros Hv Hmail [Hi Hn He Ha Hb Had Hc].
  destruct (changes_lookup changes) as (Hn' & He' & Ha' & Hb' & Had' & Hi' & Hc').
  unfold UserUpdate.valid in Hv. rewrite !andb_true_iff in Hv.
  destruct Hv as [[[_ _] _] Hadv].
  split.
  - by rewrite lookup_union_r.
  - destruct (UserUpdate.name changes) as [[s|]|]; simpl in Hn'.
    + right. exists s. by apply lookup_union_Some_l.
    + left. by apply lookup_union_Some_l.
    + by rewrite lookup_union_r.
  - destruct (UserUpdate.email changes) as [[s|]|]; simpl in He'.
    + exists s. by apply lookup_union_Some_l.
    + done.
    + by rewrite lookup_union_r.
  - destruct (UserUpdate.age changes) as [[s|]|]; simpl in Ha'.
    + right. exists s. by apply lookup_union_Some_l.
    + left. by apply lookup_union_Some_l.
    + by rewrite lookup_union_r.
  - destruct (UserUpdate.bio changes) as [[s|]|]; simpl in Hb'.
    + right. exists s. by apply lookup_union_Some_l.
    + left. by apply lookup_union_Some_l.
    + by rewrite lookup_union_r.
  - destruct (UserUpdate.addresses changes) as [[l|]|]; simpl in Had', Hadv.
    + right. exists l. split; [by apply lookup_union_Some_l|done].
    + left. by apply lookup_union_Some_l.
    + by rewrite lookup_union_r.
  - by rewrite lookup_union_r.
Qed.

Lemma handle_shaped r st :
  store_inv st → Forall shaped (USERS st) →
  Forall shaped (USERS (handle r st).2).
Proof.
  intros Hinv Ht. pose proof (inv_id st Hinv) as Hid.
  destruct r as [user utcnow|user_id payload|user_id changes|user_id]; simpl.
  - destruct (UserCreate.valid user) eqn:Hv;
      [|unfold create_user; by rewrite Hv].
    rewrite create_user_spec by done.
    destruct (existsb _ _); [done|]. simpl.
    apply Forall_app. split; [done|]. apply Forall_singleton.
    by apply shaped_new_user.
  - destruct (UserCreate.valid payload) eqn:Hv;
      [|unfold replace_user; by rewrite Hv].
    destruct (find_cases user_id st Hid) as [[_ Habs]|(k & u & _ & Hk & Hu)].
    + by rewrite replace_user_absent.
    + rewrite (replace_user_spec _ _ _ k u) by done.
      destruct (existsb _ _); [done|]. simpl.
      apply Forall_insert; [done|]. apply shaped_dict; [done|].
      by apply (Forall_lookup_1 _ _ _ _ Ht Hk).
  - destruct (UserUpdate.valid changes) eqn:Hv;
      [|unfold patch_user; by rewrite Hv].
    destruct (find_cases user_id st Hid) as [[_ Habs]|(k & u & _ & Hk & Hu)].
    + by rewrite patch_user_absent.
    + rewrite (patch_user_spec _ _ _ k u) by done.
      pose proof (Forall_lookup_1 _ _ _ _ Ht Hk) as Hsu.
      destruct (UserUpdate.email changes) as [[e|]|] eqn:Hmail; simpl; [|done|].
      * destruct (existsb _ _); [done|]. simpl.
        apply Forall_insert; [done|]. apply shaped_changes; [done| |done].
        by rewrite Hmail.
      * apply Forall_insert; [done|]. apply shaped_changes; [done| |done].
        by rewrite Hmail.
  - destruct (find_cases user_id st Hid) as [[_ Habs]|(k & u & _ & Hk & Hu)].
    + by rewrite delete_user_absent.
    + rewrite (delete_user_spec _ _ k u) by done. simpl.
      by apply Forall_delete.
Qed.

Lemma reachable_shaped st : reachable st → Forall shaped (USERS st).
Proof.
  induction 1 as [|r st Hst IH]; [constructor|].
  apply handle_shaped; [by apply reachable_inv|done].
Qed.

Lemma validate_raises u e :
  UserResponse.validate u = Raise e → e = ResponseValidationError.
Proof.
  unfold UserResponse.validate. repeat case_match; by intros [= <-].
Qed.

(** What the response model makes of a user of a reachable store. *)
Lemma validate_shaped u :
  shaped u →
  (∃ i n e a b l c,
     u !! "id" = Some (VInt i) ∧ u !! "name" = Some (VStr n) ∧
     u !! "email" = Some (VStr e) ∧ u !! "age" = Some (VInt a) ∧
     u !! "bio" = Some (of_optional VStr b) ∧
     u !! "addresses" = Some (VAddrs l) ∧
     u !! "created_at" = Some (VDatetime c) ∧
     UserResponse.validate u
     = Return {| UserResponse.id := i; UserResponse.name := n;
                 UserResponse.email := e; UserResponse.age := a;
                 UserResponse.bio := b; UserResponse.addresses := l;
                 UserResponse.created_at := c |}) ∨
  (UserResponse.validate u = Raise ResponseValidationError ∧ null_field u).
Proof.
  intros [[i Hi] Hn [e He] Ha Hb Had [c Hc]]. unfold null_field.
  destruct Hn as [Hn|[n Hn]].
  { right. split; [|by left]. unfold UserResponse.validate.
    by rewrite Hi, Hn. }
  destruct Ha as [Ha|[a Ha]].
  { right. split; [|by right; left]. unfold UserResponse.validate.
    by rewrite Hi, Hn, He, Ha. }
  destruct Had as [Had|(l & Had & Hl)].
  { right. split; [|by right; right]. unfold UserResponse.validate.
    rewrite Hi, Hn, He, Ha, Had. simpl. by destruct (UserResponse.optional_str _). }
  left. unfold UserResponse.validate. rewrite Hi, Hn, He, Ha, Had, Hc. simpl.
  rewrite Hl.
  destruct Hb as [Hb|[s Hb]]; rewrite Hb; simpl.
  - exists i, n, e, a, None, l, c. by repeat split.
  - exists i, n, e, a, (Some s), l, c. by repeat split.
Qed.

Lemma validate_fits u :
  shaped u → (∃ n, u !! "name" = Some (VStr n)) →
  (∃ a, u !! "age" = Some (VInt a)) → (∃ l, u !! "addresses" = Some (VAddrs l)) →
  ∃ r, UserResponse.validate u = Return r.
Proof.
  intros Hs [n Hn] [a Ha] [l Hl].
  destruct (validate_shaped u Hs)
    as [(? & ? & ? & ? & ? & ? & ? & _ & _ & _ & _ & _ & _ & _ & ->)|[_ Hnull]];
    [eauto|].
  destruct Hnull as [H|[H|H]]; congruence.
Qed.

(** The one way a request whose handler has returned can still fail. *)
Lemma render_raises r st b e :
  reachable st → (handle r st).1 = Return b → render b = Raise e →
  e = ResponseValidationError ∧
  ∃ user_id changes k u u',
    r = PATCH_users user_id changes ∧
    UserUpdate.valid changes = true ∧
    USERS st !! k = Some u ∧ u !! "id" = Some (VInt user_id) ∧
    b = User u' ∧ u' = UserUpdate.dict_exclude_unset changes ∪ u ∧
    (handle r st).2 = updated k u' st ∧ null_field u'.
Proof.
  intros Hreach Hb He. pose proof (reachable_inv st Hreach) as Hinv.
  pose proof (inv_id st Hinv) as Hid.
  pose proof (reachable_shaped st Hreach) as Hsh.
  assert (Hfits : ∀ u', shaped u' → (∃ n, u' !! "name" = Some (VStr n)) →
            (∃ a, u' !! "age" = Some (VInt a)) →
            (∃ l, u' !! "addresses" = Some (VAddrs l)) →
            render (User u') ≠ Raise e).
  { intros u' H1 H2 H3 H4. destruct (validate_fits u' H1 H2 H3 H4) as [x Hx].
    simpl. by rewrite Hx. }
  destruct r as [user utcnow|user_id payload|user_id changes|user_id];
    simpl in Hb.
  - exfalso. destruct (UserCreate.valid user) eqn:Hv;
      [|unfold create_user in Hb; by rewrite Hv in Hb].
    rewrite create_user_spec in Hb by done.
    destruct (existsb _ _); [done|]. simpl in Hb. injection Hb as <-.
    destruct (new_user_lookup user utcnow (USER_ID st))
      as (_ & Hn & _ & Ha & _ & Had & _).
    eapply Hfits; [by apply shaped_new_user|eauto..|exact He].
  - exfalso. destruct (UserCreate.valid payload) eqn:Hv;
      [|unfold replace_user in Hb; by rewrite Hv in Hb].
    destruct (find_cases user_id st Hid) as [[_ Habs]|(k & u & _ & Hk & Hu)].
    + by rewrite replace_user_absent in Hb.
    + rewrite (replace_user_spec _ _ _ k u) in Hb by done.
      destruct (existsb _ _); [done|]. simpl in Hb. injection Hb as <-.
      destruct (dict_lookup payload) as (Hn & _ & Ha & _ & Had & _).
      eapply Hfits; [|eexists; by apply lookup_union_Some_l..|exact He].
      apply shaped_dict; [done|]. by apply (Forall_lookup_1 _ _ _ _ Hsh Hk).
  - destruct (UserUpdate.valid changes) eqn:Hv;
      [|unfold patch_user in Hb; by rewrite Hv in Hb].
    destruct (find_cases user_id st Hid) as [[_ Habs]|(k & u & _ & Hk & Hu)].
    + by rewrite patch_user_absent in Hb.
    + pose proof (patch_user_spec user_id changes st k u Hinv Hv Hk Hu) as Hp.
      cbv zeta in Hp.
      set (u' := UserUpdate.dict_exclude_unset changes ∪ u) in *.
      assert (Hres : patch_user user_id changes st = (Return u', updated k u' st)
                     ∧ UserUpdate.email changes ≠ Some None).
      { rewrite Hp in Hb |- *.
        destruct (UserUpdate.email changes) as [[x|]|]; [|done|done].
        destruct (existsb _ _); [done|]. done. }
      destruct Hres as [Hres Hmail]. rewrite Hres in Hb.
      simpl in Hb. injection Hb as <-.
      assert (shaped u') as Hsu.
      { apply shaped_changes; [done..|].
        by apply (Forall_lookup_1 _ _ _ _ Hsh Hk). }
      simpl in He.
      destruct (validate_shaped u' Hsu)
        as [(? & ? & ? & ? & ? & ? & ? & _ & _ & _ & _ & _ & _ & _ & Hok)
           |[Hbad Hnull]].
      { by rewrite Hok in He. }
      rewrite Hbad in He. injection He as <-. split; [done|].
      exists user_id, changes, k, u, u'. repeat split; try done.
      * rewrite <- Hu. apply has_id_uid.
        by apply (Forall_lookup_1 _ _ _ _ Hid Hk).
      * simpl. by rewrite Hres.
  - exfalso. destruct (delete_user _ _) as [[m|?] ?]; simpl in Hb; [|done].
    injection Hb as <-. done.
Qed.

Lemma handler_failure r st e :
  (handle r st).1 = Raise e → (handle r st).2 = st.
Proof.
  destruct r as [user utcnow|user_id payload|user_id changes|user_id]; simpl;
    unfold create_user, replace_user, patch_user, delete_user, update_at;
    repeat case_match; simpl; intros; done.
Qed.

Lemma serve_raises r st e :
  (serve r st).1 = Raise e →
  (handle r st).1 = Raise e ∨
  ∃ b, (handle r st).1 = Return b ∧ render b = Raise e.
Proof.
  unfold serve. simpl. destruct (handle r st).1 as [b|e'] eqn:E; simpl.
  - intros H. right. by exists b.
  - intros [= <-]. by left.
Qed.

(** ** C1: emails stay unique up to case *)

(** C1.  In every reachable store no two live users share an email up to
    case, and every request leaves it so.  On such a store Create with a
    valid payload whose email some user already holds up to case raises
    [DuplicateEmailError] (answered 409) and leaves the store as it was;
    Replace and PatchPartial of an existing user do the same when the
    email they are given is held up to case by a user with another id. *)
Theorem email_uniqueness st :
  reachable st →
  unique_emails st ∧
  (∀ r, unique_emails (handle r st).2) ∧
  (∀ user utcnow u e,
     UserCreate.valid user = true →
     u ∈ USERS st → u !! "email" = Some (VStr e) →
     lower e = lower (UserCreate.email user) →
     create_user user utcnow st
     = (Raise (DuplicateEmailError (UserCreate.email user)), st)) ∧
  (∀ user_id payload t u e,
     UserCreate.valid payload = true →
     t ∈ USERS st → t !! "id" = Some (VInt user_id) →
     u ∈ USERS st → u !! "id" ≠ Some (VInt user_id) →
     u !! "email" = Some (VStr e) →
     lower e = lower (UserCreate.email payload) →
     replace_user user_id payload st
     = (Raise (DuplicateEmailError (UserCreate.email payload)), st)) ∧
  (∀ user_id changes email t u e,
     UserUpdate.valid changes = true →
     UserUpdate.email changes = Some (Some email) →
     t ∈ USERS st → t !! "id" = Some (VInt user_id) →
     u ∈ USERS st → u !! "id" ≠ Some (VInt user_id) →
     u !! "email" = Some (VStr e) → lower e = lower email →
     patch_user user_id changes st
     = (Raise (DuplicateEmailError email), st)) ∧
  (∀ email, status_of (DuplicateEmailError email) = 409).
Proof.
  intros Hreach. pose proof (reachable_inv st Hreach) as Hinv.
  split; [by apply store_inv_unique_emails|].
  split; [intros r; by apply store_inv_unique_emails, handle_inv|].
  split; [|split; [|split; [|done]]].
  - intros user utcnow u e Hv Hu He Hlow.
    rewrite create_user_spec by done.
    by rewrite (email_taken st _ u e).
  - intros user_id payload t u e Hv Ht Htid Hu Huid He Hlow.
    apply list_elem_of_lookup in Ht as [k Hk].
    rewrite (replace_user_spec _ _ _ k t) by (done || by apply uid_lookup).
    by rewrite (other_holds_witness st user_id _ u e) by (done || apply Hinv).
  - intros user_id changes email t u e Hv Hmail Ht Htid Hu Huid He Hlow.
    apply list_elem_of_lookup in Ht as [k Hk].
    rewrite (patch_user_spec _ _ _ k t) by (done || by apply uid_lookup).
    rewrite Hmail.
    by rewrite (other_holds_witness st user_id _ u e) by (done || apply Hinv).
Qed.

(** After Ann, Bob's request with [ann@X.com] is refused and changes
    nothing. *)
Lemma email_uniqueness_witness :
  reachable ann_created ∧
  unique_emails ann_created ∧
  create_user bob 1 ann_created
  = (Raise (DuplicateEmailError "ann@X.com"), ann_created).
Proof.
  split; [exact ann_created_reachable|].
  destruct (email_uniqueness ann_created ann_created_reachable)
    as (Huniq & _ & Hcreate & _).
  split; [exact Huniq|].
  apply (Hcreate bob 1 ann_stored "Ann@x.com").
  - reflexivity.
  - rewrite ann_created_users. apply list_elem_of_here.
  - by vm_compute.
  - reflexivity.
Defined.

(** ** C3: ids only grow *)

(** C3.  The counter starts at 1.  After any sequence of requests, Create
    with a valid payload either is refused for its email or returns a user
    whose id is one more than the number of ids issued so far: it is 1 when
    none was issued, it is strictly greater than every id issued before,
    whether or not that user was deleted since, and no id was issued
    twice. *)
Theorem id_monotonic trace user utcnow :
  UserCreate.valid user = true →
  USER_ID init = 1 ∧
  NoDup (issued trace init) ∧
  let st := run trace init in
  (create_user user utcnow st
   = (Raise (DuplicateEmailError (UserCreate.email user)), st) ∨
   ∃ u st' n,
     create_user user utcnow st = (Return u, st') ∧
     u !! "id" = Some (VInt n) ∧
     n = 1 + Z.of_nat (length (issued trace init)) ∧
     USER_ID st' = n + 1 ∧
     ∀ j, j ∈ issued trace init → 1 ≤ j < n).
Proof.
  intros Hv. split; [done|].
  destruct (issued_run trace init store_inv_init) as [Hle Hiss].
  simpl in Hle, Hiss. rewrite Hiss. split; [apply NoDup_seqZ|].
  pose proof (run_inv trace init store_inv_init) as Hinv.
  simpl. rewrite create_user_spec by done.
  destruct (existsb _ _); [by left|right].
  eexists _, _, (USER_ID (run trace init)). split; [done|].
  destruct (new_user_lookup user utcnow (USER_ID (run trace init)))
    as [Hid _].
  split; [done|]. rewrite length_seqZ. split; [lia|]. split; [done|].
  intros j Hj. apply elem_of_seqZ in Hj. lia.
Qed.

(** Ann is created (id 1) and deleted; Cleo then gets id 2, not 1. *)
Lemma id_monotonic_witness :
  issued [POST_users ann 0; DELETE_users 1] init = [1] ∧
  ∃ u st',
    create_user cleo 5 (run [POST_users ann 0; DELETE_users 1] init)
    = (Return u, st') ∧
    u !! "id" = Some (VInt 2).
Proof.
  split; [by vm_compute|].
  destruct (id_monotonic [POST_users ann 0; DELETE_users 1] cleo 5 eq_refl)
    as (_ & _ & [Hdup|(u & st' & n & Hc & Hid & Hn & _)]).
  - exfalso. vm_compute in Hdup. discriminate Hdup.
  - exists u, st'. split; [exact Hc|].
    rewrite Hid, Hn. reflexivity.
Defined.

(** ** C4: Create, then Get *)










(** ** C6: Replace overwrites everything but the id and the creation time *)







(** ** C8: the empty change set *)



(** ** C10: a field supplied as [null] *)

(** What a field of the change set makes of the stored value. *)
Definition patched {A} (inj : A → value) (f : option (option A))
    (old : option value) : option value :=
  match f with
  | Some v => Some (of_optional inj v)
  | None => old
  end.

(** Absent against [null], away from a [null] email.  On a reachable
    store, PatchPartial of an existing user with a valid change set whose
    email is absent, or is a string no other user holds up to case,
    succeeds and writes exactly the supplied fields: a field left out keeps
    its value, a field supplied with a value takes it, and name, age, bio
    or addresses supplied as [null] are stored as [None]. *)
Theorem patch_null_is_stored st user_id changes k u :
  reachable st →
  UserUpdate.valid changes = true →
  USERS st !! k = Some u → u !! "id" = Some (VInt user_id) →
  UserUpdate.email changes ≠ Some None →
  (∀ email v e,
     UserUpdate.email changes = Some (Some email) →
     v ∈ USERS st → v !! "id" ≠ Some (VInt user_id) →
     v !! "email" = Some (VStr e) → lower e ≠ lower email) →
  ∃ u' st',
    patch_user user_id changes st = (Return u', st') ∧
    USERS st' = <[k := u']> (USERS st) ∧ USERS st' !! k = Some u' ∧
    u' !! "name" = patched VStr (UserUpdate.name changes) (u !! "name") ∧
    u' !! "email" = patched VStr (UserUpdate.email changes) (u !! "email") ∧
    u' !! "age" = patched VInt (UserUpdate.age changes) (u !! "age") ∧
    u' !! "bio" = patched VStr (UserUpdate.bio changes) (u !! "bio") ∧
    u' !! "addresses"
      = patched VAddrs (UserUpdate.addresses changes) (u !! "addresses") ∧
    u' !! "id" = u !! "id" ∧
    u' !! "created_at" = u !! "created_at" ∧
    (UserUpdate.name changes = Some None → u' !! "name" = Some VNone) ∧
    (UserUpdate.age changes = Some None → u' !! "age" = Some VNone) ∧
    (UserUpdate.bio changes = Some None → u' !! "bio" = Some VNone) ∧
    (UserUpdate.addresses changes = Some None →
     u' !! "addresses" = Some VNone).
Proof.
  intros Hreach Hv Hk Hid Hnull Hfree.
  pose proof (reachable_inv st Hreach) as Hinv.
  set (d := UserUpdate.dict_exclude_unset changes).
  assert (patch_user user_id changes st
          = (Return (d ∪ u), updated k (d ∪ u) st)) as Hpatch.
  { rewrite (patch_user_spec _ _ _ k u) by (done || by apply uid_lookup).
    destruct (UserUpdate.email changes) as [[email|]|] eqn:Hmail;
      [|done|done].
    rewrite (other_holds_none st user_id email); [done| |done].
    intros v e. by apply Hfree. }
  assert (∀ {A} key (inj : A → value) f,
            d !! key = of_optional inj <$> f →
            (d ∪ u) !! key = patched inj f (u !! key)) as Hkey.
  { intros A key inj [v|] Hd; simpl in *.
    - by apply lookup_union_Some_l.
    - by rewrite lookup_union_r. }
  destruct (changes_lookup changes) as (Hn & He & Ha & Hb & Had & Hi & Hc).
  fold d in Hn, He, Ha, Hb, Had, Hi, Hc.
  exists (d ∪ u), (updated k (d ∪ u) st).
  split; [done|]. split; [done|].
  split; [apply list_lookup_insert_eq; by eapply lookup_lt_Some|].
  rewrite (Hkey _ _ _ _ Hn), (Hkey _ _ _ _ He), (Hkey _ _ _ _ Ha),
    (Hkey _ _ _ _ Hb), (Hkey _ _ _ _ Had).
  repeat split; try done; try (by rewrite lookup_union_r);
    by intros ->.
Qed.

(** Patching Ann with name, age and bio set to [null] stores [None] for the
    three. *)
Lemma patch_null_is_stored_witness :
  ∃ u' st',
    patch_user 1 null_name_age ann_created = (Return u', st') ∧
    USERS st' !! 0%nat = Some u' ∧
    u' !! "name" = Some VNone ∧
    u' !! "age" = Some VNone ∧
    u' !! "bio" = Some VNone.
Proof.
  destruct (patch_null_is_stored ann_created 1 null_name_age 0%nat ann_stored
              ann_created_reachable eq_refl)
    as (u' & st' & Hp & _ & Hk & _ & _ & _ & _ & _ & _ & _ &
        Hname & Hage & Hbio & _).
  - by vm_compute.
  - by vm_compute.
  - discriminate.
  - intros email v e Hmail. discriminate Hmail.
  - exists u', st'. repeat split; try assumption.
    + by apply Hname.
    + by apply Hage.
    + by apply Hbio.
Defined.

(** C10.  A field supplied as [null] is to be stored as [None]; name, age,
    bio and addresses are ([patch_null_is_stored]).  With [email] supplied
    as [null], a change set that passes validation, the duplicate check of
    lines 246-249 calls [.lower()] on [None]: on the store that holds Ann
    the request ends in [AttributeError] (a 500), nothing is written and
    the stored email is still Ann's. *)
Lemma patch_null_email_raises :
  reachable ann_created ∧
  UserUpdate.valid null_email = true ∧
  UserUpdate.dict_exclude_unset null_email !! "email" = Some VNone ∧
  patch_user 1 null_email ann_created = (Raise AttributeError, ann_created) ∧
  USERS ann_created = [ann_stored] ∧
  ann_stored !! "id" = Some (VInt 1) ∧
  ann_stored !! "email" = Some (VStr "Ann@x.com") ∧
  status_of AttributeError = 500.
Proof.
  split; [exact ann_created_reachable|].
  repeat split; by vm_compute.
Qed.

(** ** C9: the upload loop *)

(** Every read but the last returns a full chunk; the last one is not
    empty. *)
Fixpoint chunked (n : nat) (chunks : list (list Byte.byte)) : Prop :=
  match chunks with
  | [] => True
  | [c] => (0 < length c ≤ n)%nat
  | c :: chunks' => length c = n ∧ chunked n chunks'
  end.

Lemma chunked_cons n c cs :
  (0 < length c ≤ n)%nat → (cs ≠ [] → length c = n) → chunked n cs →
  chunked n (c :: cs).
Proof. intros Hc Hfull Hcs. destruct cs as [|c' cs]; simpl; auto. Qed.

Lemma copy_loop_spec n stream size f chunks :
  ∃ chunks',
    copy_loop n stream size f chunks
    = (size + Z.of_nat (length (mjoin chunks')), f ++ mjoin chunks',
       chunks ++ chunks') ∧
    (0 < n → mjoin chunks' = stream) ∧
    chunked (Z.to_nat n) chunks' ∧
    (chunks' ≠ [] ↔ take (Z.to_nat n) stream ≠ []).
Proof.
  funelim (copy_loop n stream size f chunks).
  - exists []. simpl in *. rewrite Z.add_0_r, !app_nil_r.
    split; [done|]. split; [|split; [done|]].
    + intros Hn. destruct stream as [|b stream]; [done|].
      destruct (Z.to_nat n) eqn:E; [lia|done].
    + clear Heqcall. by rewrite <- e.
  - simpl in Hread.
    destruct H as (cs & Hcall & Hjoin & Hch & Hne).
    exists ((b :: chunk) :: cs).
    rewrite Hcall. clear Heqcall Hcall.
    repeat match goal with E : sigmaI _ _ _ = _ |- _ => clear E end.
    change ((read n stream).2) with (drop (Z.to_nat n) stream) in *.
    change (mjoin ((b :: chunk) :: cs)) with ((b :: chunk) ++ mjoin cs).
    rewrite length_app, Nat2Z.inj_add, <- !app_assoc. simpl.
    assert (length (b :: chunk) ≤ Z.to_nat n)%nat as Hlen
      by (rewrite <- Hread, length_take; lia).
    split; [by rewrite Z.add_assoc|].
    split; [|split].
    + intros Hn. rewrite (Hjoin Hn).
      change (b :: chunk ++ drop (Z.to_nat n) stream)
        with ((b :: chunk) ++ drop (Z.to_nat n) stream).
      rewrite <- Hread. apply take_drop.
    + apply (chunked_cons (Z.to_nat n) (b :: chunk) cs);
        [simpl in *; lia| |done].
      intros Hcs. apply Hne in Hcs.
      rewrite <- Hread, length_take. simpl in Hcs.
      destruct (decide (Z.to_nat n ≤ length stream)%nat); [lia|].
      rewrite drop_ge, take_nil in Hcs by lia. done.
    + rewrite Hread. split; intros _; discriminate.
Qed.

(** C9.  Upload reads the stream 1 MiB at a time: every read but the last
    returns exactly 1 MiB and together they are the stream.  It answers
    with [size_bytes] equal to the number of bytes of the stream and leaves
    exactly those bytes in the destination file; in particular a stream of
    5 MiB gives [size_bytes = 5*1024*1024] and a file of that size. *)
Theorem upload_size UPLOAD_DIR upload description user_id fs :
  optional (λ i, 1 <=? i) user_id = true →
  ∃ response written chunks,
    upload_file UPLOAD_DIR upload description user_id fs
    = (Return response,
       <[path_join UPLOAD_DIR (filename upload) := written]> fs) ∧
    copy_loop MiB (file upload) 0 [] []
    = (Z.of_nat (length (file upload)), written, chunks) ∧
    mjoin chunks = file upload ∧ chunked (Z.to_nat MiB) chunks ∧
    written = file upload ∧
    r_size_bytes response = Some (Z.of_nat (length (file upload))) ∧
    r_filename response = filename upload ∧
    r_content_type response = content_type upload ∧
    (Z.of_nat (length (file upload)) = 5 * 1024 * 1024 →
     r_size_bytes response = Some (5 * 1024 * 1024) ∧
     Z.of_nat (length written) = 5 * 1024 * 1024).
Proof.
  intros Hvalid. unfold upload_file. rewrite Hvalid. simpl.
  destruct (copy_loop_spec MiB (file upload) 0 [] [])
    as (cs & Hloop & Hjoin & Hch & _).
  rewrite (Hjoin eq_refl), Z.add_0_l in Hloop. simpl in Hloop.
  rewrite Hloop.
  eexists _, _, _. split; [done|]. split; [done|].
  split; [by apply Hjoin|]. split; [done|].
  repeat split; simpl; try done; congruence.
Qed.

Definition three_bytes : UploadFile :=
  {| filename := "a.bin"; content_type := Some "application/octet-stream";
     file := [Byte.x01; Byte.x02; Byte.x03] |}.

Lemma upload_size_witness :
  ∃ response,
    upload_file "./_uploads" three_bytes (Some "demo") (Some 7) ∅
    = (Return response,
       {[ "./_uploads/a.bin" := [Byte.x01; Byte.x02; Byte.x03] ]}) ∧
    r_size_bytes response = Some 3.
Proof.
  destruct (upload_size "./_uploads" three_bytes (Some "demo") (Some 7) ∅
              eq_refl)
    as (response & written & chunks & Hup & _ & _ & _ & Hw & Hsize & _).
  exists response. split; [|exact Hsize].
  rewrite Hup, Hw. reflexivity.
Defined.

(** ** C2: List *)

(** A stored user that conforms to the data model: the keys List reads
    hold an int ([id], [age]) or a str ([name], [email]). *)
Definition conforms (u : gmap string value) : Prop :=
  ∃ i n e a,
    u !! "id" = Some (VInt i) ∧ u !! "name" = Some (VStr n) ∧
    u !! "email" = Some (VStr e) ∧ u !! "age" = Some (VInt a).

Definition text (k : string) (u : gmap string value) : string :=
  match u !! k with
  | Some (VStr s) => s
  | _ => EmptyString
  end.

Definition number (k : string) (u : gmap string value) : Z :=
  match u !! k with
  | Some (VInt n) => n
  | _ => 0
  end.

(** The pipeline in the specification's words.  Selection: [q], when
    supplied, occurs in the name or in the email up to case, and the age
    lies within the bounds that are supplied. *)
Definition q_matches (q : option string) (u : gmap string value) : bool :=
  from_option
    (λ q, contains (lower q) (lower (text "name" u)) ||
          contains (lower q) (lower (text "email" u))) true q.

Definition at_least (min_age : option Z) (u : gmap string value) : bool :=
  from_option (λ a, a <=? number "age" u) true min_age.

Definition at_most (max_age : option Z) (u : gmap string value) : bool :=
  from_option (λ a, number "age" u <=? a) true max_age.

Definition selected (q : option string) (min_age max_age : option Z)
    (u : gmap string value) : bool :=
  q_matches q u && at_least min_age u && at_most max_age u.

(** Ordering: the key is the field named by [sort_by]; ints compare as
    numbers, strs lexicographically. *)
Definition sort_key (sort_by : string) (u : gmap string value) : value :=
  default VNone (u !! sort_by).

Definition value_ltb (a b : value) : bool :=
  match a, b with
  | VInt x, VInt y => x <? y
  | VStr x, VStr y => String.ltb x y
  | _, _ => false
  end.


(** The window [[start, start + limit)] of a list. *)
Definition window {A} (start limit : Z) (l : list A) : list A :=
  take (Z.to_nat limit) (drop (Z.to_nat start) l).

Lemma sort_by_cases s :
  fullmatch sort_by_pattern s = true → s = "id" ∨ s = "name" ∨ s = "age".
Proof.
  unfold sort_by_pattern.
  rewrite !fullmatch_Alt, !orb_true_iff, !fullmatch_Lit. tauto.
Qed.

Lemma filter_all {A} (l : list A) : List.filter (λ _, true) l = l.
Proof. induction l as [|x l IH]; simpl; [done|]. by rewrite IH. Qed.

Lemma stage_q q l :
  Forall conforms l →
  optional (λ s, (2 <=? len s)%nat) q = true →
  match truthy q with
  | Some q => comprehension (matches (lower q)) l
  | None => Return l
  end = Return (List.filter (q_matches q) l).
Proof.
  intros Hl Hq. destruct q as [q|]; simpl; [|by rewrite filter_all].
  destruct q as [|c q]; [done|]. simpl.
  apply comprehension_pure. eapply Forall_impl; [done|].
  intros u (i & n & e & a & _ & Hn & He & _).
  unfold matches, getitem, q_matches, text. simpl. rewrite Hn, He. simpl.
  by destruct (contains _ _).
Qed.

Lemma stage_min min_age l :
  Forall conforms l →
  match min_age with
  | Some a => comprehension (λ u, v ← getitem u "age"; ge_int v a) l
  | None => Return l
  end = Return (List.filter (at_least min_age) l).
Proof.
  intros Hl. destruct min_age as [m|]; simpl; [|by rewrite filter_all].
  apply comprehension_pure. eapply Forall_impl; [done|].
  intros u (i & n & e & a & _ & _ & _ & Ha).
  unfold getitem, at_least, at_most, number. simpl. by rewrite Ha.
Qed.

Lemma stage_max max_age l :
  Forall conforms l →
  match max_age with
  | Some a => comprehension (λ u, v ← getitem u "age"; le_int v a) l
  | None => Return l
  end = Return (List.filter (at_most max_age) l).
Proof.
  intros Hl. destruct max_age as [m|]; simpl; [|by rewrite filter_all].
  apply comprehension_pure. eapply Forall_impl; [done|].
  intros u (i & n & e & a & _ & _ & _ & Ha).
  unfold getitem, at_least, at_most, number. simpl. by rewrite Ha.
Qed.

(** The keys of one sort are all ints or all strs. *)
Definition kind (sort_by : string) (k : value) : Prop :=
  if bool_decide (sort_by = "name") then ∃ s, k = VStr s else ∃ n, k = VInt n.

Lemma value_lt_kind sort_by a b :
  kind sort_by a → kind sort_by b → value_lt a b = Return (value_ltb a b).
Proof. unfold kind. case_bool_decide; intros [? ->] [? ->]; done. Qed.

Lemma string_ltb_irrefl s : String.ltb s s = false.
Proof.
  unfold String.ltb. pose proof (String.compare_antisym s s) as H.
  by destruct (String.compare s s).
Qed.

Lemma string_ltb_trans a b c :
  String.ltb a b = true → String.ltb b c = true → String.ltb a c = true.
Proof.
  unfold String.ltb.
  destruct (String.compare a b) eqn:E1; try done.
  destruct (String.compare b c) eqn:E2; try done. intros _ _.
  pose proof (@StrictOrder_Transitive _ _ String_as_OT.lt_strorder a b c E1 E2)
    as H.
  change (String.compare a c = Lt) in H. by rewrite H.
Qed.

Lemma string_ltb_total a b :
  String.ltb a b = false → String.ltb b a = false → a = b.
Proof.
  unfold String.ltb. rewrite (String.compare_antisym b a).
  destruct (String.compare a b) eqn:E; try done.
  intros _ _. by apply String.compare_eq_iff.
Qed.

Lemma value_ltb_irrefl a : value_ltb a a = false.
Proof.
  destruct a; simpl; try done; [apply Z.ltb_irrefl|apply string_ltb_irrefl].
Qed.

Lemma value_ltb_trans a b c :
  value_ltb a b = true → value_ltb b c = true → value_ltb a c = true.
Proof.
  destruct a, b; simpl; try done; destruct c; simpl; try done.
  - rewrite !Z.ltb_lt. lia.
  - apply string_ltb_trans.
Qed.

Lemma value_ltb_total sort_by a b :
  kind sort_by a → kind sort_by b →
  value_ltb a b = false → value_ltb b a = false → a = b.
Proof.
  unfold kind. case_bool_decide; intros [x ->] [y ->]; simpl.
  - intros H1 H2. f_equal. by apply string_ltb_total.
  - rewrite !Z.ltb_ge. intros. f_equal. lia.
Qed.

Lemma conforms_key sort_by u :
  sort_by = "id" ∨ sort_by = "name" ∨ sort_by = "age" →
  conforms u →
  getitem u sort_by = Return (sort_key sort_by u) ∧
  kind sort_by (sort_key sort_by u).
Proof.
  intros Hs (i & n & e & a & Hi & Hn & _ & Ha).
  unfold getitem, sort_key, kind.
  destruct Hs as [-> | [-> | ->]]; [rewrite Hi|rewrite Hn|rewrite Ha]; simpl;
    split; eauto.
Qed.

Lemma bind_Return {A B} (a : A) (f : A → outcome B) : (Return a ≫= f) = f a.
Proof. done. Qed.




(** Ann and Cleo. *)
Definition two_users : Store := run [POST_users ann 0; POST_users cleo 1] init.

Lemma two_users_conform : Forall conforms (USERS two_users).
Proof.
  change (USERS two_users) with [new_user ann 0 1; new_user cleo 1 2].
  repeat constructor; by repeat eexists.
Qed.





(** The scenario, step by step: Ann is created with id 1; Bob's email
    clashes up to case; List with [q = "ann"] finds Ann alone; Ann is
    deleted; Get no longer finds her. *)
Example scenario :
  (create_user ann 0 init).1 = Return ann_stored ∧
  ann_stored !! "id" = Some (VInt 1) ∧
  UserCreate.of_body bob = Some bob_model ∧
  (create_user bob_model 1 ann_created).1
    = Raise (DuplicateEmailError "ann@x.com") ∧
  list_users 1 10 (Some "ann") None None "id" "asc" ann_created
    = Return {| total := 1; page := 1; limit := 10; items := [ann_stored] |} ∧
  (delete_user 1 ann_created).1 = Return "User 1 deleted" ∧
  get_user 1 true (delete_user 1 ann_created).2 = Raise (not_found 1) ∧
  status_of (not_found 1) = 404.
Proof. repeat split; by vm_compute. Qed.

(** Page 2 of that listing is Ann: Cleo sorts before her from Z to A. *)
Example listing :
  list_users 2 1 (Some "X.com") None (Some 50) "name" "desc" two_users
  = Return {| total := 2; page := 2; limit := 1;
              items := [new_user ann 0 1] |}.
Proof. by vm_compute. Qed.

(** The hypothesis on the store is needed: once a name has been patched to
    [null], a search calls [.lower()] on it. *)
Example list_after_null_name :
  list_users 1 10 (Some "ann") None None "id" "asc"
    (patch_user 1 null_name_age ann_created).2
  = Raise AttributeError.
Proof. by vm_compute. Qed.

(* ===================================================================== *)
(** ** Further properties of the handlers                                 *)
(* ===================================================================== *)

(** *** What a request can do to the store *)

Definition payload_keys : list string :=
  ["name"; "email"; "age"; "bio"; "addresses"].

(** A change a handler applies with [dict.update]: it touches payload keys
    only, and what it puts under ["email"] is a str no other user holds up
    to case. *)
Definition update_for (st : Store) (u d : gmap string value) : Prop :=
  (∀ k, is_Some (d !! k) → k ∈ payload_keys) ∧
  (d !! "email" = None ∨
   ∃ e, d !! "email" = Some (VStr e) ∧
        existsb (other_holds e (uid u)) (USERS st) = false).

Inductive step_shape (st : Store) : outcome body → Store → Prop :=
| step_raise e : step_shape st (Raise e) st
| step_create user utcnow :
    UserCreate.valid user = true →
    existsb (same_lowered (UserCreate.email user)) (USERS st) = false →
    step_shape st (Return (User (new_user user utcnow (USER_ID st))))
      (appended (new_user user utcnow (USER_ID st)) st)
| step_update k u d :
    USERS st !! k = Some u → update_for st u d →
    step_shape st (Return (User (d ∪ u))) (updated k (d ∪ u) st)
| step_delete k u m :
    USERS st !! k = Some u →
    step_shape st (Return (Message m)) (removed k st).

Lemma dict_keys payload k :
  is_Some (UserCreate.dict payload !! k) → k ∈ payload_keys.
Proof.
  unfold UserCreate.dict, payload_keys. intros [v Hv].
  repeat (apply lookup_insert_Some in Hv as [[<- _]|[_ Hv]];
          [set_solver|]).
  apply lookup_singleton_Some in Hv as [<- _]. set_solver.
Qed.

Lemma changes_keys changes k :
  is_Some (UserUpdate.dict_exclude_unset changes !! k) → k ∈ payload_keys.
Proof.
  unfold UserUpdate.dict_exclude_unset, UserUpdate.put, payload_keys.
  intros [v Hv].
  destruct changes as [[?|] [?|] [?|] [?|] [?|]]; simpl in Hv;
    repeat (apply lookup_insert_Some in Hv as [[<- _]|[_ Hv]];
            [set_solver|]);
    by rewrite lookup_empty in Hv.
Qed.

Lemma handle_shape r st :
  store_inv st → step_shape st (handle r st).1 (handle r st).2.
Proof.
  intros Hinv. pose proof (inv_id st Hinv) as Hid.
  destruct r as [user utcnow|user_id payload|user_id changes|user_id]; simpl.
  - destruct (UserCreate.valid user) eqn:Hv.
    + rewrite create_user_spec by done.
      destruct (existsb _ _) eqn:E; [constructor|]. by constructor.
    + unfold create_user. rewrite Hv. constructor.
  - destruct (UserCreate.valid payload) eqn:Hv;
      [|unfold replace_user; rewrite Hv; constructor].
    destruct (find_cases user_id st Hid) as [[_ Habs]|(k & u & _ & Hk & Hu)].
    + rewrite replace_user_absent by done. constructor.
    + rewrite (replace_user_spec _ _ _ k u) by done.
      destruct (existsb _ _) eqn:E; [constructor|]. simpl.
      apply step_update; [done|]. split; [apply dict_keys|].
      right. exists (UserCreate.email payload).
      split; [apply dict_lookup|by rewrite Hu].
  - destruct (UserUpdate.valid changes) eqn:Hv;
      [|unfold patch_user; rewrite Hv; constructor].
    destruct (find_cases user_id st Hid) as [[_ Habs]|(k & u & _ & Hk & Hu)].
    + rewrite patch_user_absent by done. constructor.
    + rewrite (patch_user_spec _ _ _ k u) by done.
      destruct (changes_lookup changes) as (_ & Hem & _).
      destruct (UserUpdate.email changes) as [[e|]|] eqn:Hmail; simpl.
      * destruct (existsb _ _) eqn:E; [constructor|]. simpl.
        apply step_update; [done|]. split; [apply changes_keys|].
        right. exists e. split; [done|by rewrite Hu].
      * constructor.
      * apply step_update; [done|]. split; [apply changes_keys|by left].
  - destruct (find_cases user_id st Hid) as [[_ Habs]|(k & u & _ & Hk & Hu)].
    + rewrite delete_user_absent by done. constructor.
    + rewrite (delete_user_spec _ _ k u) by done. simpl.
      by eapply step_delete.
Qed.

Lemma id_not_payload : "id" ∉ payload_keys.
Proof.
  unfold payload_keys. intros H.
  repeat (apply elem_of_cons in H as [H|H]; [discriminate H|]).
  by apply not_elem_of_nil in H.
Qed.

Lemma created_at_not_payload : "created_at" ∉ payload_keys.
Proof.
  unfold payload_keys. intros H.
  repeat (apply elem_of_cons in H as [H|H]; [discriminate H|]).
  by apply not_elem_of_nil in H.
Qed.

Lemma update_for_keeps st u d key :
  update_for st u d → key ∉ payload_keys → (d ∪ u) !! key = u !! key.
Proof.
  intros [Hkeys _] Hkey. apply lookup_union_r.
  destruct (d !! key) eqn:E; [|done].
  exfalso. apply Hkey, Hkeys. by rewrite E.
Qed.

(** The e-mail address a request carries, if it carries one. *)
Definition request_email (r : request) : option string :=
  match r with
  | POST_users user _ => Some (UserCreate.email user)
  | PUT_users _ payload => Some (UserCreate.email payload)
  | PATCH_users _ changes => mjoin (UserUpdate.email changes)
  | DELETE_users _ => None
  end.

(** Every stored address is ASCII text. *)
Definition ascii_emails (st : Store) : Prop :=
  ∀ v e, v ∈ USERS st → v !! "email" = Some (VStr e) → isascii e = true.

(** X1.  All or nothing, and the one way round it.  A write request whose
    handler raises leaves the store exactly as it was, whatever the store.
    On a reachable store a request that ends in any error has left the
    store as it was, one case apart: a PatchPartial whose handler has
    written the change set and returned the user, when that user holds
    [null] under name, age or addresses; validation of the response then
    raises [ResponseValidationError] and the change stays written.
    Create, Replace and Delete that end in an error never write. *)
Theorem failure_leaves_store r st e :
  ((handle r st).1 = Raise e → (handle r st).2 = st) ∧
  (reachable st → (serve r st).1 = Raise e →
   (serve r st).2 = st ∨
   e = ResponseValidationError ∧
   ∃ user_id changes k u u',
     r = PATCH_users user_id changes ∧
     USERS st !! k = Some u ∧ u !! "id" = Some (VInt user_id) ∧
     (handle r st).1 = Return (User u') ∧
     u' = UserUpdate.dict_exclude_unset changes ∪ u ∧
     USERS (serve r st).2 = <[k := u']> (USERS st) ∧
     (u' !! "name" = Some VNone ∨ u' !! "age" = Some VNone ∨
      u' !! "addresses" = Some VNone)).
Proof.
  split; [apply handler_failure|].
  intros Hreach Hs. apply serve_raises in Hs as [Hh|(b & Hb & Hr)].
  - left. by apply (handler_failure r st e).
  - right.
    destruct (render_raises r st b e Hreach Hb Hr)
      as (-> & user_id & changes & k & u & u' & -> & _ & Hk & Hid & -> & Hu'
          & Hst & Hnull).
    split; [done|]. exists user_id, changes, k, u, u'.
    repeat split; try done. unfold serve. simpl in *. by rewrite Hst.
Qed.

(** Bob's Create is refused for Ann's address and writes nothing; a
    PatchPartial of Ann's name to [null] ends in an error and has written
    the [null]. *)
Lemma failure_leaves_store_witness :
  (serve (POST_users bob_model 1) ann_created).2 = ann_created ∧
  (serve (PATCH_users 1 null_name) ann_created).1
  = Raise ResponseValidationError ∧
  ∃ u', USERS (serve (PATCH_users 1 null_name) ann_created).2 = [u'] ∧
        u' !! "name" = Some VNone.
Proof.
  split; [|split; [by vm_compute|]].
  - destruct (failure_leaves_store (POST_users bob_model 1) ann_created
                (DuplicateEmailError "ann@x.com")) as [_ Hserve].
    destruct (Hserve ann_created_reachable) as [Hsame|[Hno _]];
      [by vm_compute|exact Hsame|discriminate Hno].
  - destruct (failure_leaves_store (PATCH_users 1 null_name) ann_created
                ResponseValidationError) as [_ Hserve].
    destruct (Hserve ann_created_reachable)
      as [Hsame|(_ & user_id & changes & k & u & u' & Hr & Hk & _ & _ & Hu'
                 & Hst & _)];
      [by vm_compute|exfalso; revert Hsame; by vm_compute|].
    injection Hr as <- <-. rewrite ann_created_users in Hk, Hst.
    destruct k as [|k]; [|by destruct k]. injection Hk as <-.
    exists u'. split; [exact Hst|]. rewrite Hu'. by vm_compute.
Defined.

(** *** Ids in the store *)

Lemma StronglySorted_delete {A} (R : relation A) (l : list A) (k : nat) :
  StronglySorted R l → StronglySorted R (delete k l).
Proof.
  intros Hs. revert k. induction Hs as [|x l Hs IH Hx]; intros [|k]; simpl;
    [constructor|constructor|done|].
  constructor; [apply IH|by apply Forall_delete].
Qed.

Lemma step_increasing st o st' :
  store_inv st → step_shape st o st' →
  StronglySorted Z.lt (uid <$> USERS st) →
  StronglySorted Z.lt (uid <$> USERS st').
Proof.
  intros Hinv Hstep Hs. destruct Hstep as [e|user utcnow Hv Hfree|k u d Hk Hd|k u m Hk];
    simpl; [done| | |].
  - rewrite fmap_app. apply StronglySorted_app_2; [|done|].
    + intros x y Hx Hy. apply list_elem_of_singleton in Hy. subst y.
      apply list_elem_of_fmap in Hx as (v & -> & Hv').
      pose proof (inv_below st Hinv) as Hb.
      rewrite Forall_forall in Hb. specialize (Hb v Hv').
      rewrite (uid_lookup (new_user user utcnow (USER_ID st)) (USER_ID st))
        by apply new_user_lookup.
      lia.
    + apply SSorted_cons; [apply SSorted_nil|apply List.Forall_nil].
  - rewrite list_fmap_insert. unfold uid at 1.
    rewrite (update_for_keeps st u d "id" Hd) by apply id_not_payload.
    fold (uid u). rewrite list_insert_id; [done|].
    by rewrite list_lookup_fmap, Hk.
  - rewrite list_fmap_delete. by apply StronglySorted_delete.
Qed.

Lemma reachable_increasing st :
  reachable st → StronglySorted Z.lt (uid <$> USERS st).
Proof.
  induction 1 as [|r st Hst IH]; [constructor|].
  pose proof (reachable_inv st Hst) as Hinv.
  eapply step_increasing; [done|by apply handle_shape|done].
Qed.

(** X2.  In every reachable store the users stand in strictly increasing
    order of id (so ids are distinct), every id lies between 1 and the
    counter, and there are fewer live users than the counter's value. *)
Theorem ids_increase st :
  reachable st →
  (∀ i j u v n m,
     (i < j)%nat → USERS st !! i = Some u → USERS st !! j = Some v →
     u !! "id" = Some (VInt n) → v !! "id" = Some (VInt m) → n < m) ∧
  (∀ u, u ∈ USERS st → ∃ n, u !! "id" = Some (VInt n) ∧ 1 ≤ n < USER_ID st) ∧
  Z.of_nat (length (USERS st)) < USER_ID st.
Proof.
  intros Hreach. pose proof (reachable_inv st Hreach) as Hinv.
  pose proof (reachable_increasing st Hreach) as Hs.
  assert (∀ u, u ∈ USERS st →
               ∃ n, u !! "id" = Some (VInt n) ∧ 1 ≤ n < USER_ID st) as Hrange.
  { intros u Hu.
    pose proof (inv_id st Hinv) as Hid. pose proof (inv_below st Hinv) as Hb.
    rewrite Forall_forall in Hid, Hb.
    exists (uid u). split; [by apply has_id_uid, Hid|by apply Hb]. }
  split; [|split; [done|]].
  - intros i j u v n m Hij Hi Hj Hn Hm.
    rewrite <- (take_drop j (USERS st)), fmap_app in Hs.
    apply StronglySorted_app in Hs as (Hcross & _ & _).
    rewrite <- (uid_lookup u n Hn), <- (uid_lookup v m Hm).
    apply Hcross; apply list_elem_of_fmap_2.
    + apply list_elem_of_lookup. exists i. by rewrite lookup_take_lt.
    + apply list_elem_of_lookup. exists 0%nat.
      by rewrite lookup_drop, Nat.add_0_r.
  - assert (uid <$> USERS st ⊆+ seqZ 1 (USER_ID st - 1)) as Hsub.
    { apply NoDup_submseteq; [apply Hinv|].
      intros n Hn. apply list_elem_of_fmap in Hn as (u & -> & Hu).
      destruct (Hrange u Hu) as (n & Hn & ?).
      rewrite (uid_lookup u n Hn). apply elem_of_seqZ. lia. }
    apply submseteq_length in Hsub.
    rewrite length_fmap, length_seqZ in Hsub.
    pose proof (inv_counter st Hinv). lia.
Qed.

Lemma ids_increase_witness :
  Z.of_nat (length (USERS two_users)) < USER_ID two_users.
Proof.
  apply (ids_increase two_users).
  apply (run_reachable [POST_users ann 0; POST_users cleo 1] init).
  apply reachable_init.
Defined.

(** *** The exceptions a write can end in *)

Lemma holder_of (f : gmap string value → bool) st email :
  (∀ u, f u = true → same_lowered email u = true) →
  Forall has_email (USERS st) →
  existsb f (USERS st) = true →
  ∃ u e, u ∈ USERS st ∧ u !! "email" = Some (VStr e) ∧ lower e = lower email.
Proof.
  intros Hf Hem Hex. apply existsb_true_elem in Hex as (u & Hu & Hfu).
  exists u, (uemail u). split; [done|].
  rewrite Forall_forall in Hem. split; [by apply has_email_uemail, Hem|].
  apply Hf in Hfu. by apply bool_decide_eq_true in Hfu.
Qed.

(** The errors of a handler, before the response is looked at. *)
Lemma handler_errors r st e :
  reachable st →
  (handle r st).1 = Raise e →
  e = RequestValidationError ∨
  (∃ user_id,
     e = not_found user_id ∧
     (∀ u, u ∈ USERS st → u !! "id" ≠ Some (VInt user_id))) ∨
  (∃ email,
     e = DuplicateEmailError email ∧ request_email r = Some email ∧
     ∃ u e', u ∈ USERS st ∧ u !! "email" = Some (VStr e') ∧
             lower e' = lower email) ∨
  (e = AttributeError ∧
   ∃ user_id changes,
     r = PATCH_users user_id changes ∧
     UserUpdate.email changes = Some None).
Proof.
  intros Hreach. pose proof (reachable_inv st Hreach) as Hinv.
  pose proof (inv_id st Hinv) as Hid. pose proof (inv_email st Hinv) as Hem.
  assert (∀ user_id, (∀ u, u ∈ USERS st → uid u ≠ user_id) →
            ∀ u, u ∈ USERS st → u !! "id" ≠ Some (VInt user_id)) as Habsent.
  { intros user_id Habs u Hu Hn. by apply (Habs u Hu), uid_lookup. }
  destruct r as [user utcnow|user_id payload|user_id changes|user_id]; simpl.
  - destruct (UserCreate.valid user) eqn:Hv.
    + rewrite create_user_spec by done.
      destruct (existsb _ _) eqn:E; [|done]. simpl. intros [= <-].
      right; right; left. eexists. split; [done|]. split; [done|].
      eapply holder_of; [|done|exact E]. done.
    + unfold create_user. rewrite Hv. simpl. intros [= <-]. by left.
  - destruct (UserCreate.valid payload) eqn:Hv;
      [|unfold replace_user; rewrite Hv; simpl; intros [= <-]; by left].
    destruct (find_cases user_id st Hid) as [[_ Habs]|(k & u & _ & Hk & Hu)].
    + rewrite replace_user_absent by done. simpl. intros [= <-].
      right; left. exists user_id. by split; [|apply Habsent].
    + rewrite (replace_user_spec _ _ _ k u) by done.
      destruct (existsb _ _) eqn:E; [|done]. simpl. intros [= <-].
      right; right; left. eexists. split; [done|]. split; [done|].
      eapply holder_of; [|done|exact E].
      intros v Hv'. by apply andb_true_iff in Hv' as [? _].
  - destruct (UserUpdate.valid changes) eqn:Hv;
      [|unfold patch_user; rewrite Hv; simpl; intros [= <-]; by left].
    destruct (find_cases user_id st Hid) as [[_ Habs]|(k & u & _ & Hk & Hu)].
    + rewrite patch_user_absent by done. simpl. intros [= <-].
      right; left. exists user_id. by split; [|apply Habsent].
    + rewrite (patch_user_spec _ _ _ k u) by done.
      destruct (UserUpdate.email changes) as [[email|]|] eqn:Hmail; simpl.
      * destruct (existsb _ _) eqn:E; [|done]. simpl. intros [= <-].
        right; right; left. eexists. split; [done|].
        split; [done|].
        eapply holder_of; [|done|exact E].
        intros v Hv'. by apply andb_true_iff in Hv' as [? _].
      * intros [= <-]. right; right; right. split; [done|]. eauto.
      * done.
  - destruct (find_cases user_id st Hid) as [[_ Habs]|(k & u & _ & Hk & Hu)].
    + rewrite delete_user_absent by done. simpl. intros [= <-].
      right; left. exists user_id. by split; [|apply Habsent].
    + by rewrite (delete_user_spec _ _ k u) by done.
Qed.

(** X3.  On a reachable store whose addresses, like the request's, are
    ASCII text, a write request can only end in: a validation error of
    the request; the 404 exception, when no user carries the id, answered
    with [{"error": true, "detail": "User <id> not found"}]; the
    duplicate-email exception, which reports the address of the request,
    when some user holds that address up to case, answered 409 with
    [{"error": true, "message": "Email already exists: <email>"}]; for
    PatchPartial with [email] supplied as [null], an [AttributeError]; or,
    for a PatchPartial whose handler returned a user that holds [null]
    under name, age or addresses, a [ResponseValidationError].  No handler
    is registered for the last two.  It never ends in a [KeyError], an
    [IndexError] or a [TypeError]. *)
Theorem write_errors r st e :
  reachable st →
  ascii_emails st →
  from_option isascii true (request_email r) = true →
  (serve r st).1 = Raise e →
  e = RequestValidationError ∨
  (∃ user_id,
     e = not_found user_id ∧
     (∀ u, u ∈ USERS st → u !! "id" ≠ Some (VInt user_id)) ∧
     exception_handler e
     = Some {| status_code := 404;
               content := {[ "error" := JBool true;
                             "detail" := JStr ("User " +:+ pretty user_id
                                               +:+ " not found") ]} |}) ∨
  (∃ email,
     e = DuplicateEmailError email ∧ request_email r = Some email ∧
     (∃ u e', u ∈ USERS st ∧ u !! "email" = Some (VStr e') ∧
              lower e' = lower email) ∧
     exception_handler e
     = Some {| status_code := 409;
               content := {[ "error" := JBool true;
                             "message" := JStr ("Email already exists: "
                                                +:+ email) ]} |}) ∨
  (e = AttributeError ∧ exception_handler e = None ∧
   ∃ user_id changes,
     r = PATCH_users user_id changes ∧
     UserUpdate.email changes = Some None) ∨
  (e = ResponseValidationError ∧ exception_handler e = None ∧
   ∃ user_id changes u',
     r = PATCH_users user_id changes ∧
     (handle r st).1 = Return (User u') ∧
     (u' !! "name" = Some VNone ∨ u' !! "age" = Some VNone ∨
      u' !! "addresses" = Some VNone)).
Proof.
  intros Hreach _ _ Hs. apply serve_raises in Hs as [Hh|(b & Hb & Hr)].
  - destruct (handler_errors r st e Hreach Hh)
      as [->|[(user_id & -> & Habs)|[(email & -> & Hreq & Hholder)
         |(-> & Hpatch)]]].
    + by left.
    + right; left. exists user_id. by repeat split.
    + right; right; left. exists email. by repeat split.
    + right; right; right; left. by repeat split.
  - destruct (render_raises r st b e Hreach Hb Hr)
      as (-> & user_id & changes & k & u & u' & -> & _ & _ & _ & -> & _
          & _ & Hnull).
    right; right; right; right. split; [done|]. split; [done|].
    by exists user_id, changes, u'.
Qed.

(** Bob's Create with Ann's address in another case is answered 409 and
    names the address; Ann holds it up to case. *)
Lemma write_errors_witness :
  (serve (POST_users bob_model 1) ann_created).1
  = Raise (DuplicateEmailError "ann@x.com") ∧
  exception_handler (DuplicateEmailError "ann@x.com")
  = Some (duplicate_email_handler "ann@x.com") ∧
  ∃ u e', u ∈ USERS ann_created ∧ u !! "email" = Some (VStr e') ∧
          lower e' = lower "ann@x.com".
Proof.
  split; [by vm_compute|]. split; [reflexivity|].
  destruct (write_errors (POST_users bob_model 1) ann_created
              (DuplicateEmailError "ann@x.com") ann_created_reachable)
    as [H|[(n & H & _)|[(email & H & _ & Hholder & _)|[[H _]|[H _]]]]];
    [|reflexivity|by vm_compute|discriminate H..| |discriminate H
     |discriminate H].
  - intros v e Hv He. rewrite ann_created_users in Hv.
    apply list_elem_of_singleton in Hv. subst v.
    vm_compute in He. injection He as <-. reflexivity.
  - injection H as <-. exact Hholder.
Defined.

(** *** What stays of a user *)

Lemma step_keeps st o st' u' :
  store_inv st → step_shape st o st' → u' ∈ USERS st' →
  (∃ u, u ∈ USERS st ∧ u' !! "id" = u !! "id" ∧
        u' !! "created_at" = u !! "created_at") ∨
  u' !! "id" = Some (VInt (USER_ID st)).
Proof.
  intros Hinv Hstep Hu'.
  destruct Hstep as [e|user utcnow Hv Hfree|k u d Hk Hd|k u m Hk]; simpl in Hu'.
  - left. by exists u'.
  - apply elem_of_app in Hu' as [Hu'|Hu'].
    + left. by exists u'.
    + apply list_elem_of_singleton in Hu'. subst u'.
      right. apply new_user_lookup.
  - apply list_elem_of_lookup in Hu' as [j Hj].
    apply list_lookup_insert_Some in Hj as [(-> & <- & _)|[_ Hj]].
    + left. exists u. split; [by eapply list_elem_of_lookup_2|].
      split; apply (update_for_keeps st); try done.
      * apply id_not_payload.
      * apply created_at_not_payload.
    + left. exists u'. split; [by eapply list_elem_of_lookup_2|done].
  - left. exists u'. split; [|done].
    by eapply list_elem_of_delete_inv.
Qed.

(** X4.  The creation time is set once: along any sequence of requests
    from a reachable store, a user that carries an id issued before the
    sequence is one the store held, with the [created_at] it had. *)
Theorem created_at_is_kept st trace u' n :
  reachable st →
  u' ∈ USERS (run trace st) → u' !! "id" = Some (VInt n) → n < USER_ID st →
  ∃ u, u ∈ USERS st ∧ u !! "id" = Some (VInt n) ∧
       u' !! "created_at" = u !! "created_at".
Proof.
  intros Hreach. pose proof (reachable_inv st Hreach) as Hinv. clear Hreach.
  revert st Hinv. induction trace as [|r trace IH]; intros st Hinv Hu' Hn Hlt.
  - by exists u'.
  - simpl in Hu'.
    destruct (handle_counter r st Hinv) as [Hle _].
    destruct (IH _ (handle_inv r st Hinv) Hu' Hn) as (u1 & Hu1 & Hn1 & Hc1);
      [lia|].
    destruct (step_keeps st _ _ u1 Hinv (handle_shape r st Hinv) Hu1)
      as [(u & Hu & Hid & Hc)|Hnew].
    + exists u. split; [done|]. split; congruence.
    + rewrite Hn1 in Hnew. injection Hnew as ->. lia.
Qed.

(** Ann after a Replace and a PatchPartial: still created at time 0. *)
Definition ann_rewritten : gmap string value :=
  UserUpdate.dict_exclude_unset null_name_age ∪ (UserCreate.dict cleo ∪ ann_stored).

Lemma created_at_is_kept_witness :
  ann_rewritten !! "created_at" = Some (VDatetime 0).
Proof.
  destruct (created_at_is_kept ann_created
              [PUT_users 1 cleo; PATCH_users 1 null_name_age]
              ann_rewritten 1 ann_created_reachable)
    as (u & Hu & _ & Hc).
  - vm_compute. apply list_elem_of_here.
  - by vm_compute.
  - by vm_compute.
  - rewrite Hc. rewrite ann_created_users in Hu.
    apply list_elem_of_singleton in Hu. subst u. by vm_compute.
Defined.

(** *** Get, Delete and the user they address *)



Lemma lookup_removed_uid st k u j v :
  store_inv st → USERS st !! k = Some u →
  delete k (USERS st) !! j = Some v → uid v ≠ uid u.
Proof.
  intros Hinv Hk Hj E.
  pose proof (inv_ids st Hinv) as Hnd.
  assert (∃ j', j' ≠ k ∧ USERS st !! j' = Some v) as (j' & Hne & Hj').
  { destruct (decide (j < k)%nat).
    - exists j. split; [lia|]. by rewrite list_lookup_delete_lt in Hj.
    - exists (S j). split; [lia|]. by rewrite list_lookup_delete_ge in Hj by lia. }
  apply Hne.
  eapply (proj1 (NoDup_alt _) Hnd j' k (uid v));
    rewrite list_lookup_fmap; [rewrite Hj'|rewrite Hk]; simpl; congruence.
Qed.

(** X6.  On a reachable store, Delete of an id some user carries succeeds
    and removes that entry alone, the others keeping their order; the
    counter is not moved back.  Afterwards Get and Delete of that id meet
    the 404 exception, and Get of any other id answers as before. *)
Theorem delete_removes st user_id k u :
  reachable st →
  USERS st !! k = Some u → u !! "id" = Some (VInt user_id) →
  ∃ st',
    delete_user user_id st
    = (Return ("User " +:+ pretty user_id +:+ " deleted"), st') ∧
    USERS st' = delete k (USERS st) ∧ USER_ID st' = USER_ID st ∧
    (∀ include, get_user user_id include st' = Raise (not_found user_id)) ∧
    delete_user user_id st' = (Raise (not_found user_id), st') ∧
    (∀ other include,
       other ≠ user_id →
       get_user other include st' = get_user other include st).
Proof.
  intros Hreach Hk Hid. pose proof (reachable_inv st Hreach) as Hinv.
  pose proof (uid_lookup u user_id Hid) as Hu.
  exists (removed k st).
  rewrite (delete_user_spec _ _ k u) by done.
  split; [done|]. split; [done|]. split; [done|].
  pose proof (store_inv_removed k st Hinv) as Hinv'.
  pose proof (inv_id _ Hinv') as Hid'.
  assert (∀ v, v ∈ USERS (removed k st) → uid v ≠ user_id) as Hgone.
  { intros v Hv. apply list_elem_of_lookup in Hv as [j Hj]. rewrite <- Hu.
    exact (lookup_removed_uid st k u j v Hinv Hk Hj). }
  pose proof (Forall_lookup_1 _ _ _ _ (inv_below st Hinv) Hk) as Hb.
  simpl in Hb. rewrite Hu in Hb.
  split; [intros include; apply get_user_absent; (done || lia)|].
  split; [by apply delete_user_absent|].
  intros other include Hother.
  destruct (Z.leb_spec 1 other) as [Hge|Hsmall].
  2: { unfold get_user. by destruct (Z.leb_spec 1 other) as [?|_]; [lia|]. }
  destruct (find_cases other st (inv_id st Hinv))
    as [[_ Habs]|(j & v & _ & Hj & Hv)].
  - rewrite (get_user_absent other include st) by (done || apply Hinv).
    apply get_user_absent; [done|done|].
    intros w Hw. apply Habs. simpl in Hw.
    by eapply list_elem_of_delete_inv.
  - rewrite (get_user_present other include st j v) by done.
    assert (j ≠ k) as Hjk by (intros ->; congruence).
    destruct (decide (j < k)%nat).
    + rewrite (get_user_present other include _ j v); try done.
      simpl. by rewrite list_lookup_delete_lt.
    + rewrite (get_user_present other include _ (pred j) v); try done.
      simpl. rewrite list_lookup_delete_ge by lia.
      by replace (S (pred j)) with j by lia.
Qed.

Lemma delete_removes_witness :
  ∃ st',
    delete_user 1 two_users = (Return "User 1 deleted", st') ∧
    get_user 1 true st' = Raise (not_found 1) ∧
    get_user 2 true st' = get_user 2 true two_users.
Proof.
  destruct (delete_removes two_users 1 0%nat (new_user ann 0 1))
    as (st' & Hdel & _ & _ & Hget & _ & Hother).
  - apply (run_reachable [POST_users ann 0; POST_users cleo 1] init).
    apply reachable_init.
  - by vm_compute.
  - by vm_compute.
  - exists st'. split; [exact Hdel|]. split; [apply Hget|].
    apply Hother. lia.
Defined.

(** *** Replace and PatchPartial on the user's own email *)




Lemma replace_result st user_id payload u' st' :
  store_inv st → replace_user user_id payload st = (Return u', st') →
  ∃ k u d, USERS st !! k = Some u ∧ uid u = user_id ∧ d !! "id" = None ∧
           u' = d ∪ u ∧ st' = updated k (d ∪ u) st.
Proof.
  intros Hinv Hr.
  destruct (UserCreate.valid payload) eqn:Hv;
    [|unfold replace_user in Hr; by rewrite Hv in Hr].
  destruct (find_cases user_id st (inv_id st Hinv))
    as [[_ Habs]|(k & u & _ & Hk & Hu)].
  - rewrite replace_user_absent in Hr by (done || apply Hinv). done.
  - rewrite (replace_user_spec _ _ _ k u) in Hr by done.
    destruct (existsb _ _); [done|]. injection Hr as <- <-.
    exists k, u, (UserCreate.dict payload).
    split; [done|]. split; [done|]. split; [apply dict_lookup|done].
Qed.

Lemma patch_result st user_id changes u' st' :
  store_inv st → patch_user user_id changes st = (Return u', st') →
  ∃ k u d, USERS st !! k = Some u ∧ uid u = user_id ∧ d !! "id" = None ∧
           u' = d ∪ u ∧ st' = updated k (d ∪ u) st.
Proof.
  intros Hinv Hr.
  destruct (UserUpdate.valid changes) eqn:Hv;
    [|unfold patch_user in Hr; by rewrite Hv in Hr].
  destruct (find_cases user_id st (inv_id st Hinv))
    as [[_ Habs]|(k & u & _ & Hk & Hu)].
  - rewrite patch_user_absent in Hr by (done || apply Hinv). done.
  - rewrite (patch_user_spec _ _ _ k u) in Hr by done.
    destruct (changes_lookup changes) as (_ & _ & _ & _ & _ & Hnid & _).
    destruct (UserUpdate.email changes) as [[e|]|]; simpl in Hr;
      [destruct (existsb _ _); [done|]|done|];
      injection Hr as <- <-;
      exists k, u, (UserUpdate.dict_exclude_unset changes);
      repeat split; done.
Qed.

(** X8.  Reads follow writes: on a reachable store, when Replace or
    PatchPartial returns a user, Get of that id on the store they leave
    returns the same user, and it still carries the id. *)
Theorem get_after_write st user_id u' st' :
  reachable st →
  (∃ payload, replace_user user_id payload st = (Return u', st')) ∨
  (∃ changes, patch_user user_id changes st = (Return u', st')) →
  get_user user_id true st' = Return u' ∧
  u' !! "id" = Some (VInt user_id).
Proof.
  intros Hreach Hwrite. pose proof (reachable_inv st Hreach) as Hinv.
  assert (store_inv st' ∧
          ∃ k u d, USERS st !! k = Some u ∧ uid u = user_id ∧
                   d !! "id" = None ∧ u' = d ∪ u ∧
                   st' = updated k (d ∪ u) st)
    as (Hinv' & k & u & d & Hk & Hu & Hd & -> & Hst').
  { destruct Hwrite as [[payload H]|[changes H]].
    - split; [|by eapply replace_result].
      pose proof (handle_inv (PUT_users user_id payload) st Hinv) as Hi.
      simpl in Hi. by rewrite H in Hi.
    - split; [|by eapply patch_result].
      pose proof (handle_inv (PATCH_users user_id changes) st Hinv) as Hi.
      simpl in Hi. by rewrite H in Hi. }
  assert ((d ∪ u) !! "id" = Some (VInt user_id)) as Hid'.
  { rewrite lookup_union_r by done. rewrite <- Hu. apply has_id_uid.
    eapply Forall_lookup_1; [apply Hinv|done]. }
  split; [|done].
  rewrite (get_user_present user_id true _ k (d ∪ u)); try done.
  - rewrite Hst'. simpl. apply list_lookup_insert_eq. by eapply lookup_lt_Some.
  - by apply uid_lookup.
Qed.

Lemma get_after_write_witness :
  ∃ u' st',
    patch_user 1 null_name_age ann_created = (Return u', st') ∧
    get_user 1 true st' = Return u'.
Proof.
  eexists _, _. split; [by vm_compute|].
  eapply (get_after_write ann_created 1 _ _ ann_created_reachable).
  right. exists null_name_age. by vm_compute.
Defined.

(** *** More on List *)

(** The selected users in the order List puts them. *)
Definition listed (q : option string) (min_age max_age : option Z)
    (sort_by order : string) (st : Store) : list (gmap string value) :=
  sorted_items value_ltb (sort_key sort_by) (bool_decide (order = "desc"))
    (List.filter (selected q min_age max_age) (USERS st)).

Lemma list_users_eval st page limit q min_age max_age sort_by order :
  Forall conforms (USERS st) →
  list_users_valid page limit q min_age max_age sort_by order = true →
  list_users page limit q min_age max_age sort_by order st
  = Return {| total := Z.of_nat (length (List.filter
                                           (selected q min_age max_age)
                                           (USERS st)));
              page := page; limit := limit;
              items := window ((page - 1) * limit) limit
                         (listed q min_age max_age sort_by order st) |}.
Proof.
  intros Hconf Hvalid.
  unfold list_users. rewrite Hvalid. cbn [negb].
  unfold list_users_valid in Hvalid.
  repeat (apply andb_true_iff in Hvalid as [Hvalid ?]).
  repeat match goal with H : (_ <=? _) = true |- _ => apply Z.leb_le in H end.
  apply Z.leb_le in Hvalid.
  match goal with H : fullmatch sort_by_pattern _ = true |- _ =>
    apply sort_by_cases in H; rename H into Hsort end.
  match goal with H : optional _ q = true |- _ => rename H into Hq end.
  rewrite (stage_q q _ Hconf Hq), bind_Return.
  pose proof (Forall_filter_bool _ (q_matches q) _ Hconf) as Hconf1.
  rewrite (stage_min min_age _ Hconf1), bind_Return.
  pose proof (Forall_filter_bool _ (at_least min_age) _ Hconf1) as Hconf2.
  rewrite (stage_max max_age _ Hconf2), bind_Return.
  rewrite (filter_twice (q_matches q) (at_least min_age)), filter_twice.
  change (List.filter _ (USERS st))
    with (List.filter (selected q min_age max_age) (USERS st)).
  set (filtered := List.filter (selected q min_age max_age) (USERS st)).
  assert (Forall conforms filtered) as Hconf3 by by apply Forall_filter_bool.
  rewrite (sort_agrees value_ltb value_lt (kind sort_by)
             (value_lt_kind sort_by) (λ u, getitem u sort_by)
             (sort_key sort_by) _ filtered), bind_Return.
  2: { eapply Forall_impl; [exact Hconf3|]. intros u Hu.
       by apply conforms_key. }
  fold (listed q min_age max_age sort_by order st).
  assert (0 ≤ (page - 1) * limit) by (apply Z.mul_nonneg_nonneg; lia).
  rewrite slice_window by lia.
  unfold listed at 1. fold filtered.
  by rewrite (Permutation_length (sorted_items_perm _ _ _ _)).
Qed.

Lemma listed_perm q min_age max_age sort_by order st :
  listed q min_age max_age sort_by order st
  ≡ₚ List.filter (selected q min_age max_age) (USERS st).
Proof. apply sorted_items_perm. Qed.

Lemma valid_any_page page page' limit q min_age max_age sort_by order :
  list_users_valid page limit q min_age max_age sort_by order = true →
  1 ≤ page' →
  list_users_valid page' limit q min_age max_age sort_by order = true.
Proof.
  unfold list_users_valid. rewrite !andb_true_iff, !Z.leb_le. tauto.
Qed.

(** X9.  On a store whose users conform to the data model, [total] does
    not depend on the page, the limit, the sort key or the order: for any
    two valid requests with the same filters it is the same number, the
    count of the users the filters select (all users when none is
    supplied).  The items are at most [limit] many and no more than
    [total], and each of them is a user of the store that the filters
    select. *)
Theorem list_total st q min_age max_age
    page limit sort_by order page' limit' sort_by' order' :
  Forall conforms (USERS st) →
  list_users_valid page limit q min_age max_age sort_by order = true →
  list_users_valid page' limit' q min_age max_age sort_by' order' = true →
  ∃ r r',
    list_users page limit q min_age max_age sort_by order st = Return r ∧
    list_users page' limit' q min_age max_age sort_by' order' st = Return r' ∧
    total r = total r' ∧
    total r
    = Z.of_nat (length (List.filter (selected q min_age max_age) (USERS st))) ∧
    (q = None → min_age = None → max_age = None →
     total r = Z.of_nat (length (USERS st))) ∧
    Z.of_nat (length (items r)) ≤ limit ∧
    Z.of_nat (length (items r)) ≤ total r ∧
    ∀ u, u ∈ items r → u ∈ USERS st ∧ selected q min_age max_age u = true.
Proof.
  intros Hconf Hv Hv'. eexists _, _.
  rewrite !list_users_eval by done.
  split; [done|]. split; [done|]. simpl.
  split; [done|]. split; [done|].
  assert (1 ≤ limit) as Hlimit.
  { unfold list_users_valid in Hv. rewrite !andb_true_iff, !Z.leb_le in Hv.
    tauto. }
  pose proof (listed_perm q min_age max_age sort_by order st) as Hperm.
  split; [|split; [|split]].
  - intros -> -> ->. unfold selected. simpl. by rewrite filter_all.
  - unfold window. rewrite length_take. lia.
  - unfold window. rewrite length_take, length_drop.
    rewrite <- (Permutation_length Hperm). lia.
  - intros u Hu. unfold window in Hu.
    apply subseteq_take, subseteq_drop in Hu. rewrite Hperm in Hu.
    apply list_elem_of_In, filter_In in Hu as [Hin Hsel].
    by apply list_elem_of_In in Hin.
Qed.

Lemma list_total_witness :
  ∃ r r',
    list_users 1 1 (Some "X.com") None None "id" "asc" two_users = Return r ∧
    list_users 2 50 (Some "X.com") None None "name" "desc" two_users
    = Return r' ∧
    total r = 2 ∧ total r' = 2.
Proof.
  destruct (list_total two_users (Some "X.com") None None
              1 1 "id" "asc" 2 50 "name" "desc"
              two_users_conform eq_refl eq_refl)
    as (r & r' & Hr & Hr' & Hsame & Htotal & _).
  exists r, r'. split; [exact Hr|]. split; [exact Hr'|].
  split; [|rewrite <- Hsame]; rewrite Htotal; reflexivity.
Defined.

(** The items of page [p], or nothing when the request fails. *)
Definition page_items (limit : Z) (q : option string)
    (min_age max_age : option Z) (sort_by order : string) (st : Store)
    (p : Z) : list (gmap string value) :=
  match list_users p limit q min_age max_age sort_by order st with
  | Return r => items r
  | Raise _ => []
  end.

(** X10.  Pages tile the listing: on a conforming store and for valid
    parameters, the items of pages 1 to [n], one after the other, are the
    first [n * limit] selected users in sorted order; once [n * limit]
    reaches [total] they are all the selected users, each exactly as often
    as the store holds it. *)
Theorem pages_tile st limit q min_age max_age sort_by order (n : nat) :
  Forall conforms (USERS st) →
  list_users_valid 1 limit q min_age max_age sort_by order = true →
  let sorted := listed q min_age max_age sort_by order st in
  let pages :=
    mjoin (page_items limit q min_age max_age sort_by order st
             <$> seqZ 1 (Z.of_nat n)) in
  pages = take (n * Z.to_nat limit) sorted ∧
  (Z.of_nat (length sorted) ≤ Z.of_nat n * limit →
   pages ≡ₚ List.filter (selected q min_age max_age) (USERS st)).
Proof.
  intros Hconf Hv sorted pages.
  assert (1 ≤ limit) as Hlimit.
  { unfold list_users_valid in Hv. rewrite !andb_true_iff, !Z.leb_le in Hv.
    tauto. }
  assert (pages = take (n * Z.to_nat limit) sorted) as Hpages.
  { subst pages. induction n as [|n IH]; [done|].
    rewrite seqZ_S, fmap_app, join_app, IH. simpl.
    rewrite app_nil_r. unfold page_items.
    rewrite list_users_eval
      by (done || (apply (valid_any_page 1); [done|lia])).
    simpl. fold sorted. unfold window.
    replace (Z.to_nat ((1 + Z.of_nat n - 1) * limit))
      with (n * Z.to_nat limit)%nat by nia.
    rewrite take_take_drop. f_equal. lia. }
  split; [done|].
  intros Hall. rewrite Hpages, take_ge by nia. apply listed_perm.
Qed.

Lemma pages_tile_witness :
  mjoin (page_items 1 (Some "X.com") None None "name" "desc" two_users
           <$> seqZ 1 2)
  ≡ₚ USERS two_users.
Proof.
  destruct (pages_tile two_users 1 (Some "X.com") None None "name" "desc" 2
              two_users_conform eq_refl) as [_ Hall].
  apply Hall. by vm_compute.
Defined.

Lemma StronglySorted_pullback {A B} (f : A → B) (R : relation B) (l : list A) :
  StronglySorted R (f <$> l) → StronglySorted (λ x y, R (f x) (f y)) l.
Proof.
  induction l as [|x l IH]; csimpl; [constructor|].
  intros Hs. apply StronglySorted_cons in Hs as [Hx Hs].
  constructor; [by apply IH|]. rewrite Forall_fmap in Hx. exact Hx.
Qed.

Lemma StronglySorted_filter_bool {A} (R : relation A) (f : A → bool) l :
  StronglySorted R l → StronglySorted R (List.filter f l).
Proof.
  induction 1 as [|x l Hs IH Hx]; simpl; [constructor|].
  destruct (f x); [|done]. constructor; [done|].
  by apply Forall_filter_bool.
Qed.

Lemma StronglySorted_among {A} (R R' : relation A) (l : list A) :
  (∀ x y, x ∈ l → y ∈ l → R x y → R' x y) →
  StronglySorted R l → StronglySorted R' l.
Proof.
  intros HR Hs. induction Hs as [|x l Hs IH Hx]; [constructor|].
  constructor.
  - apply IH. intros y z Hy Hz. apply HR; by apply list_elem_of_further.
  - rewrite Forall_forall in Hx. apply Forall_forall. intros y Hy.
    apply HR; [apply list_elem_of_here|by apply list_elem_of_further|].
    by apply Hx.
Qed.

Lemma key_id u : has_id u → sort_key "id" u = VInt (uid u).
Proof. intros [n Hn]. unfold sort_key, uid. by rewrite Hn. Qed.

Lemma same_uid_eq st x y :
  store_inv st → x ∈ USERS st → y ∈ USERS st → uid x = uid y → x = y.
Proof.
  intros Hinv Hx Hy E.
  apply list_elem_of_lookup in Hx as [i Hi], Hy as [j Hj].
  assert (i = j) as ->; [|congruence].
  eapply (proj1 (NoDup_alt _) (inv_ids st Hinv) i j (uid x));
    rewrite list_lookup_fmap; [rewrite Hi|rewrite Hj]; simpl; congruence.
Qed.

Lemma filter_bool_elem {A} (f : A → bool) (l : list A) x :
  x ∈ List.filter f l → x ∈ l.
Proof.
  intros Hx. apply list_elem_of_In, filter_In in Hx as [Hx _].
  by apply list_elem_of_In.
Qed.

(** X11.  Sorting by id is the order of creation: on a reachable store
    whose users conform to the data model, List with [sort_by = "id"]
    returns the window of the selected users in store order when the order
    is [asc], and of the same users in reverse store order when it is
    [desc]. *)
Theorem list_by_id st page limit q min_age max_age :
  reachable st → Forall conforms (USERS st) →
  list_users_valid page limit q min_age max_age "id" "asc" = true →
  let filtered := List.filter (selected q min_age max_age) (USERS st) in
  let start := (page - 1) * limit in
  list_users page limit q min_age max_age "id" "asc" st
  = Return {| total := Z.of_nat (length filtered);
              page := page; limit := limit;
              items := window start limit filtered |} ∧
  list_users page limit q min_age max_age "id" "desc" st
  = Return {| total := Z.of_nat (length filtered);
              page := page; limit := limit;
              items := window start limit (reverse filtered) |}.
Proof.
  intros Hreach Hconf Hv filtered start.
  pose proof (reachable_inv st Hreach) as Hinv.
  assert (list_users_valid page limit q min_age max_age "id" "desc" = true)
    as Hv'.
  { unfold list_users_valid in *.
    rewrite !andb_true_iff in *. by repeat split; try tauto. }
  rewrite !list_users_eval by done. fold filtered start.
  assert (∀ u, u ∈ filtered → u ∈ USERS st ∧ has_id u) as Hin.
  { intros u Hu. apply filter_bool_elem in Hu. split; [done|].
    eapply Forall_forall; [apply Hinv|done]. }
  assert (Forall (λ u, kind "id" (sort_key "id" u)) filtered) as Hkind.
  { apply Forall_forall. intros u Hu. rewrite key_id by by apply Hin.
    by eexists. }
  assert (StronglySorted (λ x y, uid x < uid y) filtered) as Hstore.
  { apply StronglySorted_filter_bool, StronglySorted_pullback.
    by apply reachable_increasing. }
  assert (∀ (reversed : bool) l,
            l ≡ₚ filtered →
            StronglySorted
              (in_order value_ltb (sort_key "id") reversed) l →
            StronglySorted
              (in_order value_ltb (sort_key "id") reversed)
              (if reversed then reverse filtered else filtered) →
            l = if reversed then reverse filtered else filtered) as Huniq.
  { intros reversed l Hperm Hl Hf.
    eapply StronglySorted_unique_strong; [|exact Hl|exact Hf|].
    - intros x y Hx Hy Hxy Hyx.
      rewrite Hperm in Hx.
      assert (y ∈ filtered) as Hy'
        by (destruct reversed; [by apply elem_of_reverse|done]).
      apply Hin in Hx as [Hx Hidx]. apply Hin in Hy' as [Hy' Hidy].
      apply (same_uid_eq st); try done.
      unfold in_order in Hxy, Hyx.
      rewrite !key_id in Hxy, Hyx by done. simpl in Hxy, Hyx.
      destruct reversed; apply Z.ltb_ge in Hxy, Hyx; lia.
    - destruct reversed; [by rewrite reverse_Permutation|done]. }
  split; do 3 f_equal.
  - apply (Huniq false).
    + apply sorted_items_perm.
    + apply (sorted_items_ordered value_ltb (kind "id"));
        [apply value_ltb_irrefl|apply value_ltb_trans|
         apply value_ltb_total|done].
    + eapply StronglySorted_among; [|exact Hstore].
      intros x y Hx Hy Hlt. unfold in_order. cbv beta in Hlt.
      rewrite !key_id by by apply Hin. simpl. apply Z.ltb_ge. lia.
  - apply (Huniq true).
    + apply sorted_items_perm.
    + apply (sorted_items_ordered value_ltb (kind "id"));
        [apply value_ltb_irrefl|apply value_ltb_trans|
         apply value_ltb_total|done].
    + eapply StronglySorted_among;
        [|apply StronglySorted_reverse; exact Hstore].
      intros x y Hx Hy Hlt. unfold in_order, flip in *. cbv beta in Hlt.
      rewrite elem_of_reverse in Hx, Hy.
      rewrite !key_id by by apply Hin. simpl. apply Z.ltb_ge. lia.
Qed.

Lemma list_by_id_witness :
  list_users 1 10 None None None "id" "desc" two_users
  = Return {| total := 2; page := 1; limit := 10;
              items := [new_user cleo 1 2; new_user ann 0 1] |}.
Proof.
  destruct (list_by_id two_users 1 10 None None None) as [_ Hdesc].
  - apply (run_reachable [POST_users ann 0; POST_users cleo 1] init).
    apply reachable_init.
  - exact two_users_conform.
  - reflexivity.
  - rewrite Hdesc. by vm_compute.
Defined.

(** *** Listing after a Patch has stored nulls *)

(** What a reachable store holds under ["name"] and ["age"]: Create and
    Replace put a str and an int there, Patch whatever the body supplied,
    [null] included. *)
Definition typed (u : gmap string value) : Prop :=
  (u !! "name" = Some VNone ∨ ∃ s, u !! "name" = Some (VStr s)) ∧
  (u !! "age" = Some VNone ∨ ∃ n, u !! "age" = Some (VInt n)).

Lemma typed_dict payload u : typed (UserCreate.dict payload ∪ u).
Proof.
  destruct (dict_lookup payload) as (Hn & _ & Ha & _).
  split; right; eexists; by apply lookup_union_Some_l.
Qed.

Lemma typed_new_user user utcnow n : typed (new_user user utcnow n).
Proof.
  destruct (new_user_lookup user utcnow n) as (_ & Hn & _ & Ha & _).
  split; right; eauto.
Qed.

Lemma typed_changes changes u :
  typed u → typed (UserUpdate.dict_exclude_unset changes ∪ u).
Proof.
  intros [Hn Ha].
  destruct (changes_lookup changes) as (Hn' & _ & Ha' & _).
  split.
  - destruct (UserUpdate.name changes) as [[s|]|]; simpl in Hn'.
    + right. exists s. by apply lookup_union_Some_l.
    + left. by apply lookup_union_Some_l.
    + by rewrite lookup_union_r.
  - destruct (UserUpdate.age changes) as [[n|]|]; simpl in Ha'.
    + right. exists n. by apply lookup_union_Some_l.
    + left. by apply lookup_union_Some_l.
    + by rewrite lookup_union_r.
Qed.

Lemma handle_typed r st :
  store_inv st → Forall typed (USERS st) →
  Forall typed (USERS (handle r st).2).
Proof.
  intros Hinv Ht. pose proof (inv_id st Hinv) as Hid.
  destruct r as [user utcnow|user_id payload|user_id changes|user_id]; simpl.
  - destruct (UserCreate.valid user) eqn:Hv;
      [|unfold create_user; by rewrite Hv].
    rewrite create_user_spec by done.
    destruct (existsb _ _); [done|]. simpl.
    apply Forall_app. split; [done|]. apply Forall_singleton.
    apply typed_new_user.
  - destruct (UserCreate.valid payload) eqn:Hv;
      [|unfold replace_user; by rewrite Hv].
    destruct (find_cases user_id st Hid) as [[_ Habs]|(k & u & _ & Hk & Hu)].
    + by rewrite replace_user_absent.
    + rewrite (replace_user_spec _ _ _ k u) by done.
      destruct (existsb _ _); [done|]. simpl.
      apply Forall_insert; [done|apply typed_dict].
  - destruct (UserUpdate.valid changes) eqn:Hv;
      [|unfold patch_user; by rewrite Hv].
    destruct (find_cases user_id st Hid) as [[_ Habs]|(k & u & _ & Hk & Hu)].
    + by rewrite patch_user_absent.
    + rewrite (patch_user_spec _ _ _ k u) by done.
      assert (Hu' : typed (UserUpdate.dict_exclude_unset changes ∪ u)).
      { apply typed_changes. by apply (Forall_lookup_1 _ _ _ _ Ht Hk). }
      destruct (UserUpdate.email changes) as [[e|]|]; simpl; [|done|].
      * destruct (existsb _ _); [done|]. simpl. by apply Forall_insert.
      * by apply Forall_insert.
  - destruct (find_cases user_id st Hid) as [[_ Habs]|(k & u & _ & Hk & Hu)].
    + by rewrite delete_user_absent.
    + rewrite (delete_user_spec _ _ k u) by done. simpl.
      by apply Forall_delete.
Qed.

Lemma reachable_typed st : reachable st → Forall typed (USERS st).
Proof.
  induction 1 as [|r st Hst IH]; [constructor|].
  apply handle_typed; [by apply reachable_inv|done].
Qed.

Lemma comprehension_raises {A} (f : A → outcome bool) (l : list A) e :
  (∀ x, x ∈ l → (∃ b, f x = Return b) ∨ f x = Raise e) →
  (∃ x, x ∈ l ∧ f x = Raise e) →
  comprehension f l = Raise e.
Proof.
  induction l as [|x l IH]; intros Hall (y & Hy & Hfy).
  - by apply elem_of_nil in Hy.
  - simpl. destruct (Hall x) as [[b Hb]| ->]; [apply list_elem_of_here| |done].
    rewrite Hb. simpl. rewrite IH; [done| |].
    + intros z Hz. apply Hall. by apply list_elem_of_further.
    + apply elem_of_cons in Hy as [->|Hy]; [congruence|eauto].
Qed.

(** X17.  A null stored by Patch breaks the listing.  In a store reached
    from the empty one, once some user's name is [null] every List call
    with a non-empty [q] raises AttributeError, and once some user's age
    is [null] every List call without [q] and with [min_age] or [max_age]
    raises TypeError, whatever the other parameters; no handler is
    registered for either. *)
Theorem null_breaks_listing st page limit q min_age max_age sort_by order :
  reachable st →
  list_users_valid page limit q min_age max_age sort_by order = true →
  (is_Some (truthy q) →
   (∃ u, u ∈ USERS st ∧ u !! "name" = Some VNone) →
   list_users page limit q min_age max_age sort_by order st
   = Raise AttributeError) ∧
  (truthy q = None → is_Some min_age ∨ is_Some max_age →
   (∃ u, u ∈ USERS st ∧ u !! "age" = Some VNone) →
   list_users page limit q min_age max_age sort_by order st
   = Raise TypeError) ∧
  exception_handler AttributeError = None ∧
  exception_handler TypeError = None.
Proof.
  intros Hst Hv.
  pose proof (reachable_typed st Hst) as Ht.
  pose proof (inv_email st (reachable_inv st Hst)) as Hem.
  rewrite Forall_forall in Ht, Hem.
  unfold list_users. rewrite Hv. simpl.
  split; [|split; [|done]].
  - intros [q' ->] (u & Hu & Hname).
    rewrite (comprehension_raises _ _ AttributeError); [done| |].
    + intros x Hx. unfold matches, getitem.
      destruct (Ht x Hx) as [[-> |[s ->]] _]; [by right|].
      destruct (Hem x Hx) as [e ->]. simpl.
      left. destruct (contains _ _); eauto.
    + exists u. split; [done|]. unfold matches, getitem. by rewrite Hname.
  - intros -> Hage (u & Hu & Hnull). simpl.
    assert (Hcmp : ∀ (cmp : value → Z → outcome bool) a,
              (∀ n, ∃ b, cmp (VInt n) a = Return b) →
              cmp VNone a = Raise TypeError →
              comprehension (λ u, v ← getitem u "age"; cmp v a) (USERS st)
              = Raise TypeError).
    { intros cmp a Hint Hnone. apply comprehension_raises.
      - intros x Hx. unfold getitem.
        destruct (Ht x Hx) as [_ [-> |[n ->]]]; simpl; [by right|].
        left. apply Hint.
      - exists u. split; [done|]. unfold getitem. by rewrite Hnull. }
    destruct min_age as [a|].
    + rewrite (Hcmp ge_int a); [done| |done]. intros n. simpl. eauto.
    + destruct Hage as [[? [=]]|[a ->]]. simpl.
      rewrite (Hcmp le_int a); [done| |done]. intros n. simpl. eauto.
Qed.

Lemma null_breaks_listing_witness :
  list_users 1 10 (Some "zz") None None "id" "asc"
    (handle (PATCH_users 1 null_name_age) ann_created).2
  = Raise AttributeError ∧
  list_users 2 5 None None (Some 40) "name" "desc"
    (handle (PATCH_users 1 null_name_age) ann_created).2
  = Raise TypeError.
Proof.
  destruct (null_breaks_listing
              (handle (PATCH_users 1 null_name_age) ann_created).2
              1 10 (Some "zz") None None "id" "asc") as (Hq & _).
  { apply reachable_step, ann_created_reachable. }
  { by vm_compute. }
  destruct (null_breaks_listing
              (handle (PATCH_users 1 null_name_age) ann_created).2
              2 5 None None (Some 40) "name" "desc") as (_ & Hage & _).
  { apply reachable_step, ann_created_reachable. }
  { by vm_compute. }
  split.
  - apply Hq; [by eexists|]. eexists. split; [apply list_elem_of_here|].
    by vm_compute.
  - apply Hage; [done|right; by eexists|]. eexists.
    split; [apply list_elem_of_here|]. by vm_compute.
Defined.

End UserService.

(* ===================================================================== *)
(** * The Student Service: properties                                     *)
(* ===================================================================== *)

Module StudentService.
Import Py PyFacts Student.

Lemma re_match_Cat r1 r2 s k :
  re_match (Cat r1 r2) s k = re_match r1 s (λ s', re_match r2 s' k).
Proof. done. Qed.

Definition us_number : string := "+15551234567".

Definition sample (phone : string) : schemas.student :=
  {| schemas.name := "Asha"; schemas.email := "asha@example.com";
     schemas.phone := phone; schemas.DoB := "2001-04-09";
     schemas.gender := "Female"; schemas.course := "CSE";
     schemas.college := "KLE" |}.

Definition no_rows : Table := {| rows := []; next_id := 1 |}.

(** ** C5: the phone pattern *)

Lemma phone_shape s :
  fullmatch schemas.phone_pattern s = true ↔
  ∃ ds, s = "+91" +:+ ds ∧ digits_0_9 ds ∧ (1 ≤ String.length ds ≤ 12)%nat.
Proof.
  unfold fullmatch, schemas.phone_pattern.
  rewrite re_match_Cat, re_match_Lit. split.
  - intros (r & -> & Hr). apply re_match_Rep_Digit in Hr
      as (ds & r' & -> & Hds & Hlen & Hr').
    apply bool_decide_eq_true in Hr'. subst r'.
    rewrite append_empty_r. apply all_digits_spec in Hds. eauto.
  - intros (ds & -> & Hds & Hlen). exists ds. split; [done|].
    apply re_match_Rep_Digit. exists ds, EmptyString.
    rewrite append_empty_r. apply all_digits_spec in Hds. done.
Qed.

(** C5, as the code has it.  The phone of a Student payload, when it is
    ASCII text, is accepted exactly when it is [+91] followed by one to
    twelve of the digits [0] to [9]; Create and Update refuse any other
    such phone with a validation error and leave the table alone. *)
Theorem phone_accepts_plus_91 s :
  isascii s = true →
  (fullmatch schemas.phone_pattern s = true ↔
   ∃ ds, s = "+91" +:+ ds ∧ digits_0_9 ds ∧
         (1 ≤ String.length ds ≤ 12)%nat) ∧
  (∀ request student_id db,
     schemas.phone request = s →
     ¬ (∃ ds, s = "+91" +:+ ds ∧ digits_0_9 ds ∧
              (1 ≤ String.length ds ≤ 12)%nat) →
     create_student request db = (Raise RequestValidationError, db) ∧
     update_student student_id request db
     = (Raise RequestValidationError, db)).
Proof.
  intros _. split; [apply phone_shape|].
  intros request student_id db <- Hno. rewrite <- phone_shape in Hno.
  apply not_true_is_false in Hno.
  unfold create_student, update_student, schemas.valid. by rewrite Hno.
Qed.

Lemma phone_accepts_plus_91_witness :
  fullmatch schemas.phone_pattern "+919876543210" = true ∧
  create_student (sample us_number) no_rows
  = (Raise RequestValidationError, no_rows) ∧
  create_student (sample "+91") no_rows
  = (Raise RequestValidationError, no_rows) ∧
  create_student (sample "+91987654321x") no_rows
  = (Raise RequestValidationError, no_rows) ∧
  create_student (sample "+911234567890123") no_rows
  = (Raise RequestValidationError, no_rows).
Proof.
  destruct (phone_accepts_plus_91 "+919876543210" eq_refl) as [[_ Hyes] _].
  assert (Hrefuse : ∀ s, isascii s = true →
            fullmatch schemas.phone_pattern s = false →
            create_student (sample s) no_rows
            = (Raise RequestValidationError, no_rows)).
  { intros s Hs Hno. destruct (phone_accepts_plus_91 s Hs) as [Hiff Hno'].
    apply (Hno' (sample s) 0 no_rows); [reflexivity|].
    intros H. apply Hiff in H. congruence. }
  split; [|repeat split; by apply Hrefuse].
  apply Hyes. exists "9876543210".
  split; [reflexivity|]. split; [by apply all_digits_spec|simpl; lia].
Defined.

(** A phone with country calling code 1 fits [+<country><1-12 digits>] and
    is refused. *)
Lemma phone_with_other_country_refused :
  fullmatch spec_phone_pattern us_number = true ∧
  fullmatch schemas.phone_pattern us_number = false ∧
  create_student (sample us_number) no_rows
  = (Raise RequestValidationError, no_rows) ∧
  schemas.valid (sample "+915551234567") = true.
Proof. repeat split; by vm_compute. Qed.

(** ** Absent ids *)

Lemma query_absent student_id db :
  (∀ r, r ∈ rows db → id r ≠ student_id) → query_id student_id db = [].
Proof.
  intros Habs. unfold query_id. induction (rows db) as [|r l IH]; [done|].
  rewrite filter_cons. destruct (decide (id r = student_id)) as [E|_].
  - exfalso. by apply (Habs r); [apply list_elem_of_here|].
  - apply IH. intros r' Hr'. apply Habs. by apply list_elem_of_further.
Qed.

Lemma absent_student student_id request db :
  (∀ r, r ∈ rows db → id r ≠ student_id) →
  schemas.valid request = true →
  get_student student_id db = Raise (not_available student_id) ∧
  update_student student_id request db
  = (Raise (not_available student_id), db) ∧
  delete_student student_id db = (Raise (not_available student_id), db).
Proof.
  intros Habs Hv.
  unfold get_student, update_student, delete_student.
  by rewrite Hv, query_absent.
Qed.


(** ** The other patterns of the payload *)

Lemma DoB_shape s :
  fullmatch schemas.DoB_pattern s = true ↔
  ∃ y m d, s = y +:+ "-" +:+ m +:+ "-" +:+ d ∧
           digits_0_9 y ∧ String.length y = 4%nat ∧
           digits_0_9 m ∧ String.length m = 2%nat ∧
           digits_0_9 d ∧ String.length d = 2%nat.
Proof.
  unfold fullmatch, schemas.DoB_pattern.
  rewrite re_match_Cat, re_match_Rep_Digit. split.
  - intros (y & r1 & -> & Hy & Hly & H1). cbv beta in H1.
    rewrite re_match_Cat, re_match_Lit in H1.
    destruct H1 as (r2 & -> & H2). cbv beta in H2.
    rewrite re_match_Cat, re_match_Rep_Digit in H2.
    destruct H2 as (m & r3 & -> & Hm & Hlm & H3). cbv beta in H3.
    rewrite re_match_Cat, re_match_Lit in H3.
    destruct H3 as (r4 & -> & H4). cbv beta in H4.
    rewrite re_match_Rep_Digit in H4.
    destruct H4 as (d & r5 & -> & Hd & Hld & H5).
    apply bool_decide_eq_true in H5. subst r5.
    rewrite append_empty_r. exists y, m, d.
    apply all_digits_spec in Hy, Hm, Hd.
    repeat split; try done; lia.
  - intros (y & m & d & -> & Hy & Hly & Hm & Hlm & Hd & Hld).
    apply all_digits_spec in Hy, Hm, Hd.
    exists y, ("-" +:+ m +:+ "-" +:+ d).
    split; [done|]. split; [done|]. split; [lia|].
    rewrite re_match_Cat, re_match_Lit. exists (m +:+ "-" +:+ d).
    split; [done|].
    rewrite re_match_Cat, re_match_Rep_Digit. exists m, ("-" +:+ d).
    split; [done|]. split; [done|]. split; [lia|].
    rewrite re_match_Cat, re_match_Lit. exists d. split; [done|].
    rewrite re_match_Rep_Digit. exists d, EmptyString.
    rewrite append_empty_r.
    split; [done|]. split; [done|]. split; [lia|]. by apply bool_decide_eq_true.
Qed.

Lemma gender_shape g :
  fullmatch schemas.gender_pattern g = true ↔
  g = "Male" ∨ g = "Female" ∨ g = "Other".
Proof.
  unfold schemas.gender_pattern.
  rewrite !fullmatch_Alt, !orb_true_iff, !fullmatch_Lit. tauto.
Qed.

(** X13.  The date of birth of a Student payload, when it is ASCII text,
    is accepted exactly when it is four digits, a hyphen, two digits, a
    hyphen and two digits, the digits being [0] to [9]: the shape is
    checked and the calendar is not.  The gender is accepted exactly when
    it is Male, Female or Other, spelled so.  Create and Update refuse a
    payload that fails either with a validation error and leave the table
    alone. *)
Theorem DoB_and_gender_shapes request :
  isascii (schemas.DoB request) = true →
  let dated :=
    ∃ y m d, schemas.DoB request = y +:+ "-" +:+ m +:+ "-" +:+ d ∧
             digits_0_9 y ∧ String.length y = 4%nat ∧
             digits_0_9 m ∧ String.length m = 2%nat ∧
             digits_0_9 d ∧ String.length d = 2%nat in
  let gendered :=
    schemas.gender request = "Male" ∨ schemas.gender request = "Female" ∨
    schemas.gender request = "Other" in
  (fullmatch schemas.DoB_pattern (schemas.DoB request) = true ↔ dated) ∧
  (fullmatch schemas.gender_pattern (schemas.gender request) = true
   ↔ gendered) ∧
  (schemas.valid request = true → dated ∧ gendered) ∧
  (¬ dated ∨ ¬ gendered →
   ∀ student_id db,
     create_student request db = (Raise RequestValidationError, db) ∧
     update_student student_id request db
     = (Raise RequestValidationError, db)).
Proof.
  intros _ dated gendered.
  split; [apply DoB_shape|]. split; [apply gender_shape|].
  split.
  - unfold schemas.valid. rewrite !andb_true_iff.
    intros [[_ Hd] Hg]. split; [by apply DoB_shape|by apply gender_shape].
  - intros Hbad student_id db.
    assert (schemas.valid request = false) as Hno.
    { unfold schemas.valid. destruct Hbad as [Hbad|Hbad].
      - unfold dated in Hbad. rewrite <- DoB_shape in Hbad.
        apply not_true_is_false in Hbad. by rewrite Hbad, andb_false_r.
      - unfold gendered in Hbad. rewrite <- gender_shape in Hbad.
        apply not_true_is_false in Hbad. by rewrite Hbad, andb_false_r. }
    unfold create_student, update_student. by rewrite Hno.
Qed.

Definition sample_born (DoB gender : string) : schemas.student :=
  {| schemas.name := "Asha"; schemas.email := "asha@example.com";
     schemas.phone := "+919876543210"; schemas.DoB := DoB;
     schemas.gender := gender; schemas.course := "CSE";
     schemas.college := "KLE" |}.

(** No calendar: the thirteenth month passes.  A gender in lower case, a
    date with a letter and a date of one digit too many do not. *)
Lemma DoB_and_gender_shapes_witness :
  schemas.valid (sample_born "2001-13-45" "Other") = true ∧
  create_student (sample_born "2001-04-09" "female") no_rows
  = (Raise RequestValidationError, no_rows) ∧
  create_student (sample_born "2001-04-0x" "Female") no_rows
  = (Raise RequestValidationError, no_rows) ∧
  create_student (sample_born "2001-04-091" "Female") no_rows
  = (Raise RequestValidationError, no_rows).
Proof.
  assert (Hrefuse : ∀ r, isascii (schemas.DoB r) = true →
            fullmatch schemas.phone_pattern (schemas.phone r) = true →
            schemas.valid r = false →
            create_student r no_rows = (Raise RequestValidationError, no_rows)).
  { intros r Hr Hphone Hno.
    destruct (DoB_and_gender_shapes r Hr) as (Hd & Hg & _ & Hbad).
    apply (λ H, proj1 (Hbad H 0 no_rows)).
    destruct (fullmatch schemas.DoB_pattern (schemas.DoB r)) eqn:E.
    - right. intros H. apply Hg in H. unfold schemas.valid in Hno.
      by rewrite Hphone, E, H in Hno.
    - left. intros H. apply Hd in H. congruence. }
  split; [by vm_compute|]. repeat split; by apply Hrefuse.
Defined.

(** ** What the handlers do to the table *)

Lemma query_present student_id db r0 :
  r0 ∈ rows db → id r0 = student_id →
  ∃ r, head (query_id student_id db) = Some r ∧ id r = student_id.
Proof.
  intros Hin Hid. unfold query_id.
  induction (rows db) as [|r l IH]; [by apply elem_of_nil in Hin|].
  rewrite filter_cons. destruct (decide (id r = student_id)) as [E|Hne].
  - by exists r.
  - apply elem_of_cons in Hin as [Heq|Hin]; [by subst r0|]. by apply IH.
Qed.

Lemma get_student_rows student_id db db' :
  filter (λ r, id r = student_id) (rows db')
  = filter (λ r, id r = student_id) (rows db) →
  get_student student_id db' = get_student student_id db.
Proof. unfold get_student, query_id. by intros ->. Qed.







Definition asha_row : Row := {| id := 1; data := sample "+919876543210" |}.

Definition one_row : Table := {| rows := [asha_row]; next_id := 2 |}.


(** X16.  Delete of an id that is in the table removes the rows with that
    id and no other, keeping the order of the rest; afterwards Get, Update
    and Delete of the id are refused with 404, and Get of any other id
    answers as it did before. *)
Theorem student_deleted student_id db r0 :
  r0 ∈ rows db → id r0 = student_id →
  ∃ db',
    delete_student student_id db = (Return "Deleted Successfully", db') ∧
    (∀ r, r ∈ rows db' ↔ r ∈ rows db ∧ id r ≠ student_id) ∧
    rows db' `sublist_of` rows db ∧
    get_student student_id db' = Raise (not_available student_id) ∧
    (∀ request, schemas.valid request = true →
       update_student student_id request db'
       = (Raise (not_available student_id), db')) ∧
    delete_student student_id db' = (Raise (not_available student_id), db') ∧
    ∀ other, other ≠ student_id →
      get_student other db' = get_student other db.
Proof.
  intros Hin Hid.
  destruct (query_present student_id db r0 Hin Hid) as (r & Hq & _).
  unfold delete_student at 1. rewrite Hq.
  eexists. split; [done|].
  set (db' := {| rows := _; next_id := _ |}).
  assert (Hrows : ∀ x, x ∈ rows db' ↔ x ∈ rows db ∧ id x ≠ student_id).
  { intros x. simpl. rewrite list_elem_of_filter. tauto. }
  assert (Habs : ∀ x, x ∈ rows db' → id x ≠ student_id).
  { intros x Hx. by apply Hrows in Hx as [_ ?]. }
  split; [done|]. split; [apply sublist_filter|].
  split; [|split; [|split]].
  - unfold get_student. by rewrite query_absent.
  - intros request Hv. by apply absent_student.
  - by apply (absent_student student_id (sample "+919876543210")).
  - intros other Hother. apply get_student_rows. simpl.
    clear Hin Hq Hrows Habs db'.
    induction (rows db) as [|x l IH]; [done|].
    rewrite !filter_cons.
    destruct (decide (id x ≠ student_id)) as [Hne|E].
    + rewrite filter_cons, IH. done.
    + rewrite IH. apply dec_stable in E.
      rewrite decide_False; [done|congruence].
Qed.

Lemma student_deleted_witness :
  ∃ db',
    (delete_student 1 one_row).2 = db' ∧
    get_student 1 db' = Raise (not_available 1).
Proof.
  destruct (student_deleted 1 one_row asha_row)
    as (db' & Hd & _ & _ & Hg & _).
  - apply list_elem_of_here.
  - reflexivity.
  - exists db'. by rewrite Hd.
Defined.

End StudentService.

(* ===================================================================== *)
(** * Both services: ids that are not there                               *)
(* ===================================================================== *)

Module Services.
Import Py App.

(** C7, as the code has it.  With well-formed arguments, an operation
    addressed to an id its store does not hold raises the 404 exception and
    leaves the store as it was: Get (for an id of at least 1, the only ids
    its path accepts), Replace, PatchPartial and Delete of the User
    Service on a reachable store, and Get, Update and Delete of the Student
    Service. *)
Theorem absent_id_not_found st user_id include_addresses payload changes
    db student_id request :
  UserService.reachable st →
  (∀ u, u ∈ USERS st → u !! "id" ≠ Some (VInt user_id)) →
  UserCreate.valid payload = true →
  UserUpdate.valid changes = true →
  (∀ r, r ∈ Student.rows db → Student.id r ≠ student_id) →
  Student.schemas.valid request = true →
  (1 ≤ user_id →
   get_user user_id include_addresses st = Raise (not_found user_id)) ∧
  replace_user user_id payload st = (Raise (not_found user_id), st) ∧
  patch_user user_id changes st = (Raise (not_found user_id), st) ∧
  delete_user user_id st = (Raise (not_found user_id), st) ∧
  Student.get_student student_id db
  = Raise (Student.not_available student_id) ∧
  Student.update_student student_id request db
  = (Raise (Student.not_available student_id), db) ∧
  Student.delete_student student_id db
  = (Raise (Student.not_available student_id), db) ∧
  status_of (not_found user_id) = 404 ∧
  status_of (Student.not_available student_id) = 404.
Proof.
  intros Hreach Habs Hp Hc Hrows Hr.
  pose proof (UserService.reachable_inv st Hreach) as Hinv.
  pose proof (UserService.inv_id st Hinv) as Hid.
  pose proof (UserService.uid_absent st user_id Hid Habs) as Huid.
  destruct (StudentService.absent_student student_id request db Hrows Hr)
    as (Hget & Hupd & Hdel).
  split; [intros Hge; by apply UserService.get_user_absent|].
  split; [by apply UserService.replace_user_absent|].
  split; [by apply UserService.patch_user_absent|].
  split; [by apply UserService.delete_user_absent|].
  done.
Qed.

(** After Ann (id 1): nobody has id 2, and no student has id 5. *)
Lemma absent_id_not_found_witness :
  get_user 2 true UserService.ann_created = Raise (not_found 2) ∧
  delete_user 2 UserService.ann_created
  = (Raise (not_found 2), UserService.ann_created) ∧
  Student.delete_student 5 StudentService.no_rows
  = (Raise (Student.not_available 5), StudentService.no_rows).
Proof.
  destruct (absent_id_not_found UserService.ann_created 2 true
              UserService.cleo UserService.null_name_age
              StudentService.no_rows 5
              (StudentService.sample "+919876543210")
              UserService.ann_created_reachable)
    as (Hget & _ & _ & Hdel & _ & _ & Hsdel & _).
  - intros u Hu. rewrite UserService.ann_created_users in Hu.
    apply list_elem_of_singleton in Hu. subst u. by vm_compute.
  - reflexivity.
  - reflexivity.
  - intros r Hr. by apply not_elem_of_nil in Hr.
  - reflexivity.
  - split; [apply Hget; lia|]. split; [exact Hdel|exact Hsdel].
Defined.

(** Get declares [user_id >= 1]: on the empty store, where id 0 is absent
    like any other, it answers 0 with a validation error (422), not with
    the 404 exception. *)
Lemma get_user_zero_is_rejected :
  UserService.reachable init ∧
  (∀ u, u ∈ USERS init → u !! "id" ≠ Some (VInt 0)) ∧
  get_user 0 true init = Raise RequestValidationError ∧
  get_user 0 true init ≠ Raise (not_found 0) ∧
  status_of RequestValidationError = 422.
Proof.
  split; [apply UserService.reachable_init|].
  split; [intros u Hu; by apply not_elem_of_nil in Hu|].
  repeat split; done.
Qed.

End Services.
